(** * Mortgage calculator: the amortization engine of [App.jsx]

    A shallow embedding of [calculate] and [handleSubmit] from
    [src/App.jsx], and the properties of the amortization schedule.
    The earlier variant of the calculator, with two terms and no extra
    payment, is not modelled.

    Numbers.  A JavaScript number is modelled as an exact rational
    extended with the three special values the program can produce and
    test for: [NaN], [+Infinity] and [-Infinity].  Finite arithmetic is
    exact: binary64 rounding, overflow and the sign of zero are outside
    the model.  Finite results are kept in lowest terms ([Qred]), which
    changes no value and keeps the schedule computable. *)

From Stdlib Require Import QArith Qround Qpower Lqa Lia ZArith List Bool Sorted.
From Stdlib Require String.
Import ListNotations.

Local Open Scope Q_scope.

(** ** JavaScript numbers *)

Module JS.

Inductive num : Type :=
| NaN
| PInf
| NInf
| Fin (q : Q).

(** A finite result, in lowest terms. *)
Definition fin (q : Q) : num := Fin (Qred q).

Definition Qlt_bool (a b : Q) : bool := negb (Qle_bool b a).

(** [x + y] *)
Definition add (x y : num) : num :=
  match x, y with
  | NaN, _ | _, NaN => NaN
  | PInf, NInf | NInf, PInf => NaN
  | PInf, _ | _, PInf => PInf
  | NInf, _ | _, NInf => NInf
  | Fin a, Fin b => fin (a + b)
  end.

(** [x - y] *)
Definition sub (x y : num) : num :=
  match x, y with
  | NaN, _ | _, NaN => NaN
  | PInf, PInf | NInf, NInf => NaN
  | PInf, _ | _, NInf => PInf
  | NInf, _ | _, PInf => NInf
  | Fin a, Fin b => fin (a - b)
  end.

(** An infinity of the sign of [q]; [0 * Infinity] is [NaN]. *)
Definition signed_inf (positive : bool) (q : Q) : num :=
  if Qeq_bool q 0 then NaN
  else if Bool.eqb positive (Qlt_bool 0 q) then PInf else NInf.

(** [x * y] *)
Definition mul (x y : num) : num :=
  match x, y with
  | NaN, _ | _, NaN => NaN
  | PInf, PInf | NInf, NInf => PInf
  | PInf, NInf | NInf, PInf => NInf
  | PInf, Fin q | Fin q, PInf => signed_inf true q
  | NInf, Fin q | Fin q, NInf => signed_inf false q
  | Fin a, Fin b => fin (a * b)
  end.

(** [x / y].  A zero divisor is taken as [+0]: the only divisor of the
    program that can vanish is a difference [x - 1], which is [+0] when
    it is zero. *)
Definition div (x y : num) : num :=
  match x, y with
  | NaN, _ | _, NaN => NaN
  | Fin a, Fin b =>
      if Qeq_bool b 0 then signed_inf true a else fin (a / b)
  | Fin _, _ => Fin 0
  | PInf, Fin b => if Qlt_bool b 0 then NInf else PInf
  | NInf, Fin b => if Qlt_bool b 0 then PInf else NInf
  | _, _ => NaN
  end.

(** [x <= y] and [x > y]: every comparison with [NaN] is false. *)
Definition le (x y : num) : bool :=
  match x, y with
  | NaN, _ | _, NaN => false
  | NInf, _ | _, PInf => true
  | PInf, _ | _, NInf => false
  | Fin a, Fin b => Qle_bool a b
  end.

Definition lt (x y : num) : bool :=
  match x, y with
  | NaN, _ | _, NaN => false
  | PInf, _ | _, NInf => false
  | NInf, _ | _, PInf => true
  | Fin a, Fin b => Qlt_bool a b
  end.

Definition gt (x y : num) : bool := lt y x.

Definition isNaN (x : num) : bool :=
  match x with NaN => true | _ => false end.

(** [!x] on a number: true for [0] and [NaN]. *)
Definition falsy (x : num) : bool :=
  match x with
  | NaN => true
  | Fin q => Qeq_bool q 0
  | _ => false
  end.

(** [Math.round]: the nearest integer, halves towards [+Infinity]. *)
Definition Math_round (x : num) : num :=
  match x with
  | Fin q => Fin (inject_Z (Qfloor (q + (1 # 2))))
  | _ => x
  end.

(** [Math.pow(x, n)] for the exponents of the program: a number of
    months, or [NaN] ([None]) when the term lookup was [undefined]. *)
Definition Math_pow (x : num) (n : option nat) : num :=
  match n with
  | None => NaN
  | Some O => Fin 1
  | Some (S _ as k) =>
      match x with
      | NaN => NaN
      | PInf => PInf
      | NInf => if Nat.even k then PInf else NInf
      | Fin q => fin (q ^ Z.of_nat k)
      end
  end.

End JS.

(** ** The engine: [calculate] *)

(** [const EPSILON = 0.01] *)
Definition EPSILON : JS.num := JS.Fin (1 # 100).

(** One element of [monthlyPayments]. *)
Module Payment.
Record t : Type := mk {
  interestPayment : JS.num;
  principalPayment : JS.num;
  principal : JS.num;
  totalPaid : JS.num
}.
End Payment.

(** One element of [tableData], before the currency formatter. *)
Module Row.
Record t : Type := mk {
  interest : JS.num;
  principal : JS.num;
  principalBalance : JS.num
}.
End Row.

(** [chartData]: the labels and the two data sets. *)
Module ChartData.
Record t : Type := mk {
  labels : list nat;
  Interest : list JS.num;
  Principal : list JS.num
}.
End ChartData.

(** The object [calculate] returns.  [currencyFormatter.format] is the
    platform's; the record holds the numbers handed to it. *)
Module Result.
Record t : Type := mk {
  monthlyPayment : JS.num;
  totalPaid : JS.num;
  totalYears : nat;
  chartData : ChartData.t;
  tableData : list Row.t
}.
End Result.

Definition termYears : list nat :=
  [1; 2; 3; 4; 5; 6; 7; 8; 9; 10; 11; 12; 13; 14; 15; 16; 17; 18; 19; 20;
   21; 22; 23; 24; 25; 26; 27; 28; 29; 30]%nat.

(** [termYears[loanTerm] * 12]; [None] is the [NaN] of an index outside
    the array. *)
Definition termMonths (loanTerm : nat) : option nat :=
  option_map (fun y => (y * 12)%nat) (nth_error termYears loanTerm).

(** Lines 93-96: the fixed monthly payment. *)
Definition monthlyPayment (loanAmount interest : JS.num) (loanTerm : nat) : JS.num :=
  let i := JS.div interest (JS.Fin 12) in
  let a := JS.mul i (JS.Math_pow (JS.add (JS.Fin 1) i) (termMonths loanTerm)) in
  let b := JS.sub (JS.Math_pow (JS.add (JS.Fin 1) i) (termMonths loanTerm)) (JS.Fin 1) in
  JS.div (JS.mul loanAmount a) b.

(** The body of the [for] loop, lines 107-126: the record pushed for a
    month that starts with the given [principal] and [totalPaid]. *)
Definition month (monthlyPayment interest extraPrincipal : JS.num)
    (principal totalPaid : JS.num) : Payment.t :=
  let interestPayment := JS.div (JS.mul principal interest) (JS.Fin 12) in
  let principalPayment :=
    JS.sub (JS.add monthlyPayment extraPrincipal) interestPayment in
  let principalPayment :=
    if JS.le principal principalPayment then principal else principalPayment in
  let principal := JS.sub principal principalPayment in
  let totalPaid := JS.add totalPaid (JS.add interestPayment principalPayment) in
  let principal := if JS.le principal EPSILON then JS.Fin 0 else principal in
  Payment.mk interestPayment principalPayment principal totalPaid.

(** The [for] loop with [j] iterations left: the records it pushes, and
    [principal] and [totalPaid] when it ends (by [break] or [j = 12]). *)
Fixpoint year (j : nat) (monthlyPayment interest extraPrincipal : JS.num)
    (principal totalPaid : JS.num) : list Payment.t * JS.num * JS.num :=
  match j with
  | O => ([], principal, totalPaid)
  | S j' =>
      let r := month monthlyPayment interest extraPrincipal principal totalPaid in
      if JS.le (Payment.principal r) EPSILON
      then ([r], Payment.principal r, Payment.totalPaid r)
      else
        let '(rs, p, t) :=
          year j' monthlyPayment interest extraPrincipal
            (Payment.principal r) (Payment.totalPaid r) in
        (r :: rs, p, t)
  end.

(** The [while] loop, lines 103-135.  It has no bound in the source:
    [fuel] counts the iterations of its body that may still run, and
    [None] means they did not suffice. *)
Fixpoint schedule (fuel : nat) (monthlyPayment interest extraPrincipal : JS.num)
    (principal totalPaid : JS.num) : option (list (list Payment.t) * JS.num) :=
  if JS.gt principal EPSILON then
    match fuel with
    | O => None
    | S fuel' =>
        let '(monthlyPayments, p, t) :=
          year 12 monthlyPayment interest extraPrincipal principal totalPaid in
        match schedule fuel' monthlyPayment interest extraPrincipal p t with
        | None => None
        | Some (payments, total) =>
            Some (match monthlyPayments with
                  | [] => payments
                  | _ :: _ => monthlyPayments :: payments
                  end, total)
        end
    end
  else Some ([], totalPaid).

(** Lines 98-135 of [calculate]: [payments] and the accumulated
    [totalPaid], before any rounding. *)
Definition amortize (fuel : nat) (loanAmount interest : JS.num) (loanTerm : nat)
    (extraPrincipal : JS.num) : option (list (list Payment.t) * JS.num) :=
  schedule fuel (monthlyPayment loanAmount interest loanTerm) interest
    extraPrincipal loanAmount (JS.Fin 0).

(** Lines 147-153: the sums of a year. *)
Definition yearInterest (monthlyPayments : list Payment.t) : JS.num :=
  fold_left (fun acc payment => JS.add acc (Payment.interestPayment payment))
    monthlyPayments (JS.Fin 0).

Definition yearPrincipal (monthlyPayments : list Payment.t) : JS.num :=
  fold_left (fun acc payment => JS.add acc (Payment.principalPayment payment))
    monthlyPayments (JS.Fin 0).

Definition length_num (monthlyPayments : list Payment.t) : JS.num :=
  JS.Fin (inject_Z (Z.of_nat (length monthlyPayments))).

(** [monthlyPayments[monthlyPayments.length - 1]?.principal ?? 0] *)
Definition lastPrincipal (monthlyPayments : list Payment.t) : JS.num :=
  match last (map Some monthlyPayments) None with
  | Some payment => Payment.principal payment
  | None => JS.Fin 0
  end.

Definition tableRow (monthlyPayments : list Payment.t) : Row.t :=
  Row.mk (JS.Math_round (yearInterest monthlyPayments))
         (JS.Math_round (yearPrincipal monthlyPayments))
         (JS.Math_round (lastPrincipal monthlyPayments)).

(** Lines 137-175. *)
Definition result (monthlyPayment totalPaid : JS.num)
    (payments : list (list Payment.t)) : Result.t :=
  Result.mk
    (JS.Math_round monthlyPayment)
    (JS.Math_round totalPaid)
    (length payments)
    (ChartData.mk
       (map S (seq 0 (length payments)))
       (map (fun mps => JS.div (yearInterest mps) (length_num mps)) payments)
       (map (fun mps => JS.div (yearPrincipal mps) (length_num mps)) payments))
    (map tableRow payments).

(** [calculate(loanAmount, interest, loanTerm, extraPrincipal)] *)
Definition calculate (fuel : nat) (loanAmount interest : JS.num) (loanTerm : nat)
    (extraPrincipal : JS.num) : option Result.t :=
  match amortize fuel loanAmount interest loanTerm extraPrincipal with
  | None => None
  | Some (payments, totalPaid) =>
      Some (result (monthlyPayment loanAmount interest loanTerm) totalPaid payments)
  end.

(** ** The form handler: [handleSubmit] *)

Module Results.
Record t : Type := mk {
  monthlyPayment : option JS.num;
  totalPaid : option JS.num;
  totalYears : option nat;
  tableData : option (list Row.t)
}.
End Results.

(** The part of [state] that [handleSubmit] reads and writes.  The text
    fields hold what [Number] makes of them, and [loanTerm] the index
    that the selected option stands for. *)
Module State.
Record t : Type := mk {
  loanAmount : JS.num;
  interest : JS.num;
  loanTerm : nat;
  extraMonthlyPayment : JS.num;
  error : option String.string;
  results : Results.t
}.
End State.

(** The messages written to [state.error]. *)
Module Messages.
Import String.
Local Open Scope string_scope.
Definition loanAmount : string := "Loan amount is invalid".
Definition interest : string := "Interest is invalid".
Definition extraMonthlyPayment : string := "Extra monthly payment is invalid".
Definition none : string := EmptyString.
End Messages.

Definition set_error (msg : String.string) (state : State.t) : State.t :=
  State.mk (State.loanAmount state) (State.interest state) (State.loanTerm state)
    (State.extraMonthlyPayment state) (Some msg) (State.results state).

Definition set_results (r : Result.t) (state : State.t) : State.t :=
  State.mk (State.loanAmount state) (State.interest state) (State.loanTerm state)
    (State.extraMonthlyPayment state) (State.error state)
    (Results.mk (Some (Result.monthlyPayment r)) (Some (Result.totalPaid r))
       (Some (Result.totalYears r)) (Some (Result.tableData r))).

(** Lines 185-221, without the chart update.  [None]: [calculate] did
    not return within [fuel]. *)
Definition handleSubmit (fuel : nat) (state : State.t) : option State.t :=
  let loanAmount := State.loanAmount state in
  let interest := JS.mul (State.interest state) (JS.Fin (1 # 100)) in
  let extraMonthlyPayment := State.extraMonthlyPayment state in
  if JS.isNaN loanAmount || JS.falsy loanAmount then
    Some (set_error Messages.loanAmount state)
  else if JS.isNaN interest || JS.falsy interest then
    Some (set_error Messages.interest state)
  else if JS.isNaN extraMonthlyPayment || JS.lt extraMonthlyPayment (JS.Fin 0) then
    Some (set_error Messages.extraMonthlyPayment state)
  else
    match calculate fuel loanAmount interest (State.loanTerm state)
            extraMonthlyPayment with
    | None => None
    | Some r => Some (set_results r (set_error Messages.none state))
    end.

(** ** The schedule as a sequence of months

    The definitions in which the properties of the schedule are stated.
    In all of them [A] is the fixed payment, [r] the annual rate and [e]
    the extra payment, as finite numbers. *)

(** The month that starts with principal [p] and total [t]. *)
Definition mth (A r e p t : Q) : Payment.t :=
  month (JS.Fin A) (JS.Fin r) (JS.Fin e) (JS.Fin p) (JS.Fin t).

(** [run A r e p t recs p' t']: starting a month with principal [p] and
    total [t], the loop pushes the records [recs], none of which ends
    it, and stands at principal [p'] and total [t']. *)
Inductive run (A r e : Q) : Q -> Q -> list Payment.t -> Q -> Q -> Prop :=
| run_nil p t : run A r e p t [] p t
| run_cons p t p1 t1 recs p' t' :
    Payment.principal (mth A r e p t) = JS.Fin p1 ->
    Payment.totalPaid (mth A r e p t) = JS.Fin t1 ->
    1 # 100 < p1 ->
    run A r e p1 t1 recs p' t' ->
    run A r e p t (mth A r e p t :: recs) p' t'.

(** The month that starts at [p], [t] ends the loop. *)
Definition stops (A r e p t : Q) : Prop :=
  Payment.principal (mth A r e p t) = JS.Fin 0.

(** [trace A r e p t recs total]: the complete list of records of a
    loop that starts at [p], [t] and ends, and the total it has
    accumulated. *)
Definition trace (A r e p t : Q) (recs : list Payment.t) (total : JS.num) : Prop :=
  exists pre p' t',
    recs = pre ++ [mth A r e p' t'] /\ run A r e p t pre p' t' /\
    stops A r e p' t' /\ total = Payment.totalPaid (mth A r e p' t').

(** Every year but the last has twelve months, and the last has one to
    twelve. *)
Definition years_shape (payments : list (list Payment.t)) : Prop :=
  (length (concat payments) <= 12 * length payments)%nat /\
  (12 * length payments < length (concat payments) + 12)%nat.

(** All the months of the schedule, in order. *)
Definition months (payments : list (list Payment.t)) : list Payment.t :=
  concat payments.


(** [desc b recs]: the balances recorded in [recs] are finite, never
    negative and never increase, starting from the balance [b]. *)
Fixpoint desc (b : Q) (recs : list Payment.t) : Prop :=
  match recs with
  | [] => True
  | rcd :: rest =>
      exists q, Payment.principal rcd = JS.Fin q /\ 0 <= q <= b /\ desc q rest
  end.

(** A record whose interest portion is not negative and below what is
    paid in a month, and whose principal portion is positive. *)
Definition reduces (budget : Q) (rcd : Payment.t) : Prop :=
  exists ip pp, Payment.interestPayment rcd = JS.Fin ip /\
                Payment.principalPayment rcd = JS.Fin pp /\
                0 <= ip < budget /\ 0 < pp.

(** A record whose balance is above [EPSILON]. *)
Definition above (rcd : Payment.t) : Prop :=
  JS.gt (Payment.principal rcd) EPSILON = true.

(** The balance after [k] months in which [A + e] is paid in full, and
    what has been paid by then. *)
Fixpoint planned (P A r e : Q) (k : nat) : Q :=
  match k with
  | O => P
  | S k' => planned P A r e k' * (1 + r * (1 # 12)) - (A + e)
  end.

Fixpoint paid (A e : Q) (k : nat) : Q :=
  match k with
  | O => 0
  | S k' => paid A e k' + (A + e)
  end.

(** ** The words of the specification *)

(** The payment of the specification: with [i = annualRate / 12] and
    [n = termYears * 12],
    [payment = principal * i * (1+i)^n / ((1+i)^n - 1)]. *)
Definition payment_formula (principal annualRate : Q) (termYears : nat) : Q :=
  let i := annualRate / 12 in
  let n := Z.of_nat (termYears * 12) in
  principal * i * (1 + i) ^ n / ((1 + i) ^ n - 1).

(** The balance after [k] months in which the payment of the
    specification and the extra payment [e] are paid in full:
    [P * (1+i)^k - (payment + e) * ((1+i)^k - 1) / i]. *)
Definition planned_balance (principal annualRate e : Q) (termYears k : nat) : Q :=
  let i := annualRate / 12 in
  let g := (1 + i) ^ Z.of_nat k in
  principal * g - (payment_formula principal annualRate termYears + e) * (g - 1) / i.

(** The inputs the specification calls valid: a positive principal, a
    positive annual rate, an extra payment that is not negative and a
    term selector [loanTerm] that picks [ty] years. *)
Definition valid (P r e : Q) (loanTerm ty : nat) : Prop :=
  0 < P /\ 0 < r /\ 0 <= e /\ nth_error termYears loanTerm = Some ty.

(** A number that [!x] or [isNaN(x)] rejects: zero, or not a number. *)
Definition zero_or_NaN (x : JS.num) : Prop :=
  x = JS.NaN \/ exists q, x = JS.Fin q /\ q == 0.

(** A number below zero. *)
Definition negative (x : JS.num) : Prop :=
  x = JS.NInf \/ exists q, x = JS.Fin q /\ q < 0.

(** The annual rate [handleSubmit] derives from the interest field. *)
Definition annualRate (state : State.t) : JS.num :=
  JS.mul (State.interest state) (JS.Fin (1 # 100)).

(** The form as first filled in, before any submission. *)
Definition form (loanAmount interest : JS.num) (loanTerm : nat)
    (extraMonthlyPayment : JS.num) : State.t :=
  State.mk loanAmount interest loanTerm extraMonthlyPayment None
    (Results.mk None None None None).

(** ** Bounds on powers

    The powers of the monthly growth factor over hundreds of months are
    bounded by repeated squaring, rounding outwards to twelve decimals
    at every step. *)

Definition round_down (v : Q) : Q := Qfloor (v * 1000000000000) # 1000000000000.

Definition round_up (v : Q) : Q := Qceiling (v * 1000000000000) # 1000000000000.

(** A lower and an upper bound of [x ^ n] for [l <= x <= u]. *)
Fixpoint pow_bounds (l u : Q) (n : positive) : Q * Q :=
  match n with
  | xH => (l, u)
  | xO p =>
      let '(a, b) := pow_bounds l u p in
      (round_down (a * a), round_up (b * b))
  | xI p =>
      let '(a, b) := pow_bounds l u p in
      (round_down (l * (a * a)), round_up (u * (b * b)))
  end.

(** ** Sums of portions *)






(** ** The earlier version of the calculator

    The first version of the program offers two terms, takes no extra
    payment and runs its loops a fixed number of times. *)

Module Legacy.

(** [{ 0: 30, 1: 15 }[loanTerm]]; [None] is [undefined]. *)
Definition termYears (loanTerm : nat) : option nat :=
  match loanTerm with
  | 0%nat => Some 30%nat
  | 1%nat => Some 15%nat
  | _ => None
  end.

Definition termMonths (loanTerm : nat) : option nat :=
  option_map (fun y => (y * 12)%nat) (termYears loanTerm).

Definition monthlyPayment (loanAmount interest : JS.num) (loanTerm : nat) : JS.num :=
  let i := JS.div interest (JS.Fin 12) in
  let a := JS.mul i (JS.Math_pow (JS.add (JS.Fin 1) i) (termMonths loanTerm)) in
  let b := JS.sub (JS.Math_pow (JS.add (JS.Fin 1) i) (termMonths loanTerm)) (JS.Fin 1) in
  JS.div (JS.mul loanAmount a) b.

(** The variables the inner loop updates. *)
Module Acc.
Record t : Type := mk {
  principal : JS.num;
  totalPaid : JS.num;
  interestPayments : JS.num;
  principalPayments : JS.num
}.
End Acc.

(** The body of the inner loop. *)
Definition month (monthlyPayment interest : JS.num) (s : Acc.t) : Acc.t :=
  let interestPayment := JS.div (JS.mul (Acc.principal s) interest) (JS.Fin 12) in
  let principalPayment := JS.sub monthlyPayment interestPayment in
  Acc.mk (JS.sub (Acc.principal s) principalPayment)
         (JS.add (Acc.totalPaid s) (JS.add interestPayment principalPayment))
         (JS.add (Acc.interestPayments s) interestPayment)
         (JS.add (Acc.principalPayments s) principalPayment).

(** The inner loop with [j] iterations left. *)
Fixpoint year (j : nat) (monthlyPayment interest : JS.num) (s : Acc.t) : Acc.t :=
  match j with
  | O => s
  | S j' => year j' monthlyPayment interest (month monthlyPayment interest s)
  end.

(** The outer loop with [i] iterations left: the two data sets it
    pushes, and [totalPaid] when it ends. *)
Fixpoint years (i : nat) (monthlyPayment interest : JS.num)
    (principal totalPaid : JS.num) : list JS.num * list JS.num * JS.num :=
  match i with
  | O => ([], [], totalPaid)
  | S i' =>
      let s := year 12 monthlyPayment interest
                 (Acc.mk principal totalPaid (JS.Fin 0) (JS.Fin 0)) in
      let '(interests, principals, total) :=
        years i' monthlyPayment interest (Acc.principal s) (Acc.totalPaid s) in
      (JS.div (Acc.interestPayments s) (JS.Fin 12) :: interests,
       JS.div (Acc.principalPayments s) (JS.Fin 12) :: principals,
       total)
  end.

Module Result.
Record t : Type := mk {
  monthlyPayment : JS.num;
  totalPaid : JS.num;
  chartData : ChartData.t
}.
End Result.

(** [[...Array(termYears)].map((_, index) => index + 1)]:
    [Array(undefined)] is an array of one element. *)
Definition labels (loanTerm : nat) : list nat :=
  match termYears loanTerm with
  | Some y => map S (seq 0 y)
  | None => [1%nat]
  end.

(** [calculate(loanAmount, interest, loanTerm)]; the test
    [i < undefined] of the outer loop is false. *)
Definition calculate (loanAmount interest : JS.num) (loanTerm : nat) : Result.t :=
  let mp := monthlyPayment loanAmount interest loanTerm in
  let rounds := match termYears loanTerm with Some y => y | None => O end in
  let '(interests, principals, total) :=
    years rounds mp interest loanAmount (JS.Fin 0) in
  Result.mk (JS.Math_round mp) (JS.Math_round total)
    (ChartData.mk (labels loanTerm) interests principals).

Module Results.
Record t : Type := mk {
  monthlyPayment : option JS.num;
  totalPaid : option JS.num
}.
End Results.

Module State.
Record t : Type := mk {
  loanAmount : JS.num;
  interest : JS.num;
  loanTerm : nat;
  error : option String.string;
  results : Results.t
}.
End State.

(** [handleSubmit], without the chart update. *)
Definition handleSubmit (state : State.t) : State.t :=
  let loanAmount := State.loanAmount state in
  let interest := JS.mul (State.interest state) (JS.Fin (1 # 100)) in
  if JS.isNaN loanAmount then
    State.mk (State.loanAmount state) (State.interest state) (State.loanTerm state)
      (Some Messages.loanAmount) (State.results state)
  else if JS.isNaN interest then
    State.mk (State.loanAmount state) (State.interest state) (State.loanTerm state)
      (Some Messages.interest) (State.results state)
  else
    let res := calculate loanAmount interest (State.loanTerm state) in
    State.mk (State.loanAmount state) (State.interest state) (State.loanTerm state)
      (Some Messages.none)
      (Results.mk (Some (Result.monthlyPayment res)) (Some (Result.totalPaid res))).

End Legacy.

(** ** Comparisons and arithmetic on finite numbers *)

Lemma Qlt_bool_iff (a b : Q) : JS.Qlt_bool a b = true <-> a < b.
Proof.
  unfold JS.Qlt_bool. rewrite negb_true_iff. split; intro H.
  - apply Qnot_le_lt. intro Hle. apply Qle_bool_iff in Hle. congruence.
  - destruct (Qle_bool b a) eqn:E; trivial.
    apply Qle_bool_iff in E. exfalso. apply (Qlt_not_le _ _ H E).
Qed.


Lemma le_Fin_false (a b : Q) : JS.le (JS.Fin a) (JS.Fin b) = false <-> b < a.
Proof.
  simpl. split; intro H.
  - apply Qnot_le_lt. intro Hle. apply Qle_bool_iff in Hle. congruence.
  - destruct (Qle_bool a b) eqn:E; trivial.
    apply Qle_bool_iff in E. exfalso. apply (Qlt_not_le _ _ H E).
Qed.

Lemma gt_Fin (a b : Q) : JS.gt (JS.Fin a) (JS.Fin b) = true <-> b < a.
Proof. apply Qlt_bool_iff. Qed.

Lemma gt_Fin_false (a b : Q) : JS.gt (JS.Fin a) (JS.Fin b) = false <-> a <= b.
Proof.
  unfold JS.gt, JS.lt, JS.Qlt_bool. rewrite negb_false_iff. apply Qle_bool_iff.
Qed.

Lemma add_Fin (a b : Q) : JS.add (JS.Fin a) (JS.Fin b) = JS.Fin (Qred (a + b)).
Proof. reflexivity. Qed.

Lemma sub_Fin (a b : Q) : JS.sub (JS.Fin a) (JS.Fin b) = JS.Fin (Qred (a - b)).
Proof. reflexivity. Qed.

Lemma mul_Fin (a b : Q) : JS.mul (JS.Fin a) (JS.Fin b) = JS.Fin (Qred (a * b)).
Proof. reflexivity. Qed.

Lemma div_Fin_12 (a : Q) : JS.div (JS.Fin a) (JS.Fin 12) = JS.Fin (Qred (a / 12)).
Proof. reflexivity. Qed.

Lemma le_Fin_bool (a b : Q) : JS.le (JS.Fin a) (JS.Fin b) = Qle_bool a b.
Proof. reflexivity. Qed.

(** ** One month on finite numbers *)

Section Month.

Variables A r e : Q.

Local Abbreviation mth := (mth A r e).

Lemma month_cases (p t : Q) :
  exists ip pp tn : Q,
    Payment.interestPayment (mth p t) = JS.Fin ip /\
    Payment.principalPayment (mth p t) = JS.Fin pp /\
    Payment.totalPaid (mth p t) = JS.Fin tn /\
    ip == p * r * (1 # 12) /\
    tn == t + (ip + pp) /\
    ((p <= A + e - ip /\ pp == p) \/ (A + e - ip < p /\ pp == A + e - ip)) /\
    ((p - pp <= 1 # 100 /\ Payment.principal (mth p t) = JS.Fin 0) \/
     (1 # 100 < p - pp /\
      exists pn, Payment.principal (mth p t) = JS.Fin pn /\ pn == p - pp)).
Proof.
  unfold mth, month, EPSILON.
  rewrite mul_Fin, div_Fin_12, add_Fin, sub_Fin. cbv zeta.
  rewrite le_Fin_bool.
  set (ip := Qred (Qred (p * r) / 12)).
  set (raw := Qred (Qred (A + e) - ip)).
  assert (Hip : ip == p * r * (1 # 12)).
  { unfold ip. rewrite !Qred_correct. field. }
  assert (Hraw : raw == A + e - ip).
  { unfold raw. rewrite !Qred_correct. reflexivity. }
  destruct (Qle_bool p raw) eqn:Hclamp.
  - apply Qle_bool_iff in Hclamp.
    rewrite !add_Fin, sub_Fin, le_Fin_bool.
    exists ip, p, (Qred (t + Qred (ip + p))). cbn [Payment.interestPayment
      Payment.principalPayment Payment.principal Payment.totalPaid].
    repeat split; trivial.
    + rewrite !Qred_correct. reflexivity.
    + left. split; [lra | reflexivity].
    + left. split; [lra |].
      assert (Hz : Qle_bool (Qred (p - p)) (1 # 100) = true).
      { apply Qle_bool_iff. rewrite Qred_correct. lra. }
      rewrite Hz. reflexivity.
  - assert (Hlt : raw < p).
    { apply Qnot_le_lt. intro H. apply Qle_bool_iff in H. congruence. }
    rewrite !add_Fin, sub_Fin, le_Fin_bool.
    exists ip, raw, (Qred (t + Qred (ip + raw))). cbn [Payment.interestPayment
      Payment.principalPayment Payment.principal Payment.totalPaid].
    repeat split; trivial.
    + rewrite !Qred_correct. reflexivity.
    + right. split; [lra | trivial].
    + destruct (Qle_bool (Qred (p - raw)) (1 # 100)) eqn:Hsnap.
      * left. apply Qle_bool_iff in Hsnap. rewrite Qred_correct in Hsnap.
        split; trivial.
      * right. split.
        -- apply Qnot_le_lt. intro H.
           assert (Qle_bool (Qred (p - raw)) (1 # 100) = true).
           { apply Qle_bool_iff. rewrite Qred_correct. trivial. }
           congruence.
        -- exists (Qred (p - raw)). split; trivial. apply Qred_correct.
Qed.

End Month.

(** ** The schedule as a sequence of months *)

Lemma year_S (j : nat) (mp i x p t : JS.num) :
  year (S j) mp i x p t =
  let r := month mp i x p t in
  if JS.le (Payment.principal r) EPSILON
  then ([r], Payment.principal r, Payment.totalPaid r)
  else
    let '(rs, p', t') := year j mp i x (Payment.principal r) (Payment.totalPaid r) in
    (r :: rs, p', t').
Proof. reflexivity. Qed.

Lemma schedule_eq (fuel : nat) (mp i x p t : JS.num) :
  schedule fuel mp i x p t =
  if JS.gt p EPSILON then
    match fuel with
    | O => None
    | S fuel' =>
        let '(monthlyPayments, p', t') := year 12 mp i x p t in
        match schedule fuel' mp i x p' t' with
        | None => None
        | Some (payments, total) =>
            Some (match monthlyPayments with
                  | [] => payments
                  | _ :: _ => monthlyPayments :: payments
                  end, total)
        end
    end
  else Some ([], t).
Proof. destruct fuel; reflexivity. Qed.

(** More fuel does not change what the loop returns. *)
Lemma schedule_fuel (fuel : nat) (mp i x : JS.num) :
  forall p t res fuel',
    schedule fuel mp i x p t = Some res -> (fuel <= fuel')%nat ->
    schedule fuel' mp i x p t = Some res.
Proof.
  induction fuel as [|fuel IH]; intros p t res fuel' Hs Hle;
    rewrite schedule_eq in Hs; rewrite schedule_eq;
    destruct (JS.gt p EPSILON); try discriminate; trivial.
  destruct fuel' as [|fuel']; [lia |].
  destruct (year 12 mp i x p t) as [[mps pf] tf].
  destruct (schedule fuel mp i x pf tf) as [r0|] eqn:Hrest; [| discriminate].
  rewrite (IH _ _ _ fuel' Hrest) by lia. exact Hs.
Qed.

Section Trace.

Variables A r e : Q.

Local Abbreviation mth := (mth A r e).
Local Abbreviation run := (run A r e).
Local Abbreviation stops := (stops A r e).
Local Abbreviation trace := (trace A r e).
Local Abbreviation run_nil := (run_nil A r e).

Lemma month_next (p t : Q) :
  stops p t \/
  exists p1 t1, Payment.principal (mth p t) = JS.Fin p1 /\
                Payment.totalPaid (mth p t) = JS.Fin t1 /\ 1 # 100 < p1.
Proof.
  destruct (month_cases A r e p t)
    as (ip & pp & tn & _ & _ & Ht & _ & _ & _ & [[_ H0] | [Hgt (pn & Hpn & Heq)]]).
  - left. exact H0.
  - right. exists pn, tn. repeat split; trivial. rewrite Heq. exact Hgt.
Qed.

Lemma run_app p t recs1 p1 t1 recs2 p2 t2 :
  run p t recs1 p1 t1 -> run p1 t1 recs2 p2 t2 -> run p t (recs1 ++ recs2) p2 t2.
Proof.
  induction 1 as [|p t q1 u1 recs p' t' Hp Ht Hgt Hrun IH]; intro H2; simpl.
  - exact H2.
  - eapply run_cons; eauto.
Qed.

Lemma run_snoc p t recs p1 t1 p2 t2 :
  run p t recs p1 t1 ->
  Payment.principal (mth p1 t1) = JS.Fin p2 ->
  Payment.totalPaid (mth p1 t1) = JS.Fin t2 ->
  1 # 100 < p2 ->
  run p t (recs ++ [mth p1 t1]) p2 t2.
Proof.
  intros Hrun Hp Ht Hgt. eapply run_app; [exact Hrun |].
  eapply run_cons; eauto. apply run_nil.
Qed.

Lemma run_running p t recs p' t' :
  run p t recs p' t' -> recs <> [] -> 1 # 100 < p'.
Proof.
  induction 1 as [|p t q1 u1 recs p' t' Hp Ht Hgt Hrun IH]; intro Hne.
  - congruence.
  - destruct recs as [|x xs].
    + inversion Hrun; subst. exact Hgt.
    + apply IH. discriminate.
Qed.

(** The loop is deterministic: a run cannot outlast the month that ends
    the loop. *)
Lemma run_before_stop p t recs1 p1 t1 :
  run p t recs1 p1 t1 ->
  forall pre p' t', run p t pre p' t' -> stops p' t' ->
  (length recs1 <= length pre)%nat.
Proof.
  induction 1 as [|p t q1 u1 recs p1 t1 Hp Ht Hgt Hrun IH];
    intros pre p' t' Hpre Hstop; simpl.
  - lia.
  - inversion Hpre as [|? ? q2 u2 recs' ? ? Hp' Ht' Hgt' Hrun']; subst.
    + unfold stops in Hstop. rewrite Hp in Hstop.
      injection Hstop as ->. exfalso. revert Hgt. apply Qle_not_lt. discriminate.
    + rewrite Hp in Hp'. rewrite Ht in Ht'.
      injection Hp' as <-. injection Ht' as <-.
      simpl. apply le_n_S. eapply IH; eauto.
Qed.

Lemma run_det p t recs1 p1 t1 :
  run p t recs1 p1 t1 ->
  forall recs2 p2 t2, run p t recs2 p2 t2 -> length recs1 = length recs2 ->
  recs1 = recs2 /\ p1 = p2 /\ t1 = t2.
Proof.
  induction 1 as [|p t q1 u1 recs p1 t1 Hp Ht Hgt Hrun IH];
    intros recs2 p2 t2 H2 Hlen.
  - inversion H2; subst; [auto | discriminate].
  - inversion H2 as [|? ? q2 u2 recs' ? ? Hp' Ht' Hgt' Hrun']; subst;
      [discriminate |].
    rewrite Hp in Hp'. rewrite Ht in Ht'.
    injection Hp' as <-. injection Ht' as <-.
    destruct (IH _ _ _ Hrun') as (-> & -> & ->); [simpl in Hlen; lia | auto].
Qed.

(** A run can be cut after any number of its months. *)
Lemma run_split p t recs p' t' :
  run p t recs p' t' ->
  forall k, (k <= length recs)%nat ->
  exists r1 r2 p1 t1,
    recs = r1 ++ r2 /\ length r1 = k /\ run p t r1 p1 t1 /\ run p1 t1 r2 p' t'.
Proof.
  induction 1 as [|p t q1 u1 recs p' t' Hp Ht Hgt Hrun IH]; intros k Hk.
  - exists [], [], p, t. simpl in Hk.
    repeat split; try apply run_nil. simpl. lia.
  - destruct k as [|k].
    + exists [], (mth p t :: recs), p, t.
      repeat split; [apply run_nil | eapply run_cons; eauto].
    + destruct (IH k) as (r1 & r2 & p1 & t1 & -> & Hlen & H1 & H2).
      { simpl in Hk. lia. }
      exists (mth p t :: r1), r2, p1, t1. repeat split; trivial.
      * simpl. lia.
      * eapply run_cons; eauto.
Qed.

(** *** Accounting *)





(** *** The [for] loop *)

Lemma year_spec (j : nat) :
  forall p t recs pf tf,
    year j (JS.Fin A) (JS.Fin r) (JS.Fin e) (JS.Fin p) (JS.Fin t) = (recs, pf, tf) ->
    (trace p t recs tf /\ pf = JS.Fin 0 /\ (length recs <= j)%nat) \/
    (exists p' t', run p t recs p' t' /\ pf = JS.Fin p' /\ tf = JS.Fin t' /\
                   length recs = j).
Proof.
  induction j as [|j IH]; intros p t recs pf tf Hy.
  - simpl in Hy. injection Hy as <- <- <-.
    right. exists p, t. repeat split. apply run_nil.
  - rewrite year_S in Hy. cbv zeta in Hy. fold (mth p t) in Hy.
    destruct (month_next p t) as [Hstop | (p1 & t1 & Hp & Ht & Hgt)].
    + unfold stops in Hstop. rewrite Hstop in Hy.
      change (JS.le (JS.Fin 0) EPSILON) with true in Hy. cbv iota in Hy.
      injection Hy as <- <- <-. left. repeat split.
      * exists [], p, t. repeat split; trivial. apply run_nil.
      * simpl. lia.
    + rewrite Hp, Ht in Hy.
      assert (Hle : JS.le (JS.Fin p1) EPSILON = false)
        by (apply le_Fin_false; exact Hgt).
      rewrite Hle in Hy.
      destruct (year j (JS.Fin A) (JS.Fin r) (JS.Fin e) (JS.Fin p1) (JS.Fin t1))
        as [[rs p2] t2] eqn:Hrest.
      injection Hy as <- <- <-.
      destruct (IH _ _ _ _ _ Hrest)
        as [((pre & p' & t' & -> & Hrun & Hstop & ->) & -> & Hlen)
           | (p' & t' & Hrun & -> & -> & Hlen)].
      * left. repeat split.
        -- exists (mth p t :: pre), p', t'. repeat split; trivial.
           eapply run_cons; eauto.
        -- simpl. lia.
      * right. exists p', t'. repeat split; trivial.
        -- eapply run_cons; eauto.
        -- simpl. lia.
Qed.

(** *** The [while] loop *)

Lemma trace_length p t recs total :
  trace p t recs total -> (1 <= length recs)%nat.
Proof.
  intros (pre & p' & t' & -> & _). rewrite length_app. simpl. lia.
Qed.

Lemma schedule_spec (fuel : nat) :
  forall p t payments total,
    schedule fuel (JS.Fin A) (JS.Fin r) (JS.Fin e) (JS.Fin p) (JS.Fin t)
      = Some (payments, total) ->
    (p <= 1 # 100 /\ payments = [] /\ total = JS.Fin t) \/
    (1 # 100 < p /\ trace p t (concat payments) total /\ years_shape payments).
Proof.
  induction fuel as [|fuel IH]; intros p t payments total Hs;
    rewrite schedule_eq in Hs.
  - destruct (JS.gt (JS.Fin p) EPSILON) eqn:Hgt; [discriminate |].
    injection Hs as <- <-. left. apply gt_Fin_false in Hgt. auto.
  - destruct (JS.gt (JS.Fin p) EPSILON) eqn:Hgt.
    2:{ injection Hs as <- <-. left. apply gt_Fin_false in Hgt. auto. }
    apply gt_Fin in Hgt. right. split; [exact Hgt |].
    destruct (year 12 (JS.Fin A) (JS.Fin r) (JS.Fin e) (JS.Fin p) (JS.Fin t))
      as [[mps pf] tf] eqn:Hy.
    destruct (year_spec _ _ _ _ _ _ Hy)
      as [(Htr & -> & Hlen) | (p' & t' & Hrun & -> & -> & Hlen)].
    + rewrite schedule_eq in Hs.
      change (JS.gt (JS.Fin 0) EPSILON) with false in Hs. cbv iota in Hs.
      pose proof (trace_length _ _ _ _ Htr) as Hpos.
      destruct mps as [|m mps]; [simpl in Hpos; lia |].
      injection Hs as <- <-. simpl concat. rewrite app_nil_r.
      split; [exact Htr |]. unfold years_shape. simpl concat.
      rewrite app_nil_r. simpl length in *. lia.
    + destruct (schedule fuel (JS.Fin A) (JS.Fin r) (JS.Fin e) (JS.Fin p') (JS.Fin t'))
        as [[payments' total']|] eqn:Hrest; [| discriminate].
      destruct mps as [|m mps]; [simpl in Hlen; lia |].
      injection Hs as <- <-.
      assert (Hrun' : 1 # 100 < p').
      { eapply run_running; [exact Hrun | discriminate]. }
      destruct (IH _ _ _ _ Hrest) as [(Hle & _) | (_ & Htr & Hsh1 & Hsh2)].
      * exfalso. revert Hrun'. apply Qle_not_lt. exact Hle.
      * destruct Htr as (pre & q & u & Hcat & Hrun2 & Hstop & ->).
        split.
        -- exists ((m :: mps) ++ pre), q, u. repeat split; trivial.
           ++ simpl concat. rewrite Hcat. rewrite app_assoc. reflexivity.
           ++ eapply run_app; eauto.
        -- unfold years_shape. cbn [concat length app].
           rewrite length_app. cbn [length] in Hlen. lia.
Qed.

(** The loop returns once no month can start after [N] months. *)
Lemma schedule_terminates (fuel : nat) :
  forall N p t,
    (forall recs p' t', run p t recs p' t' -> 1 # 100 < p' -> (length recs < N)%nat) ->
    (N <= 12 * fuel)%nat ->
    exists res,
      schedule fuel (JS.Fin A) (JS.Fin r) (JS.Fin e) (JS.Fin p) (JS.Fin t) = Some res.
Proof.
  induction fuel as [|fuel IH]; intros N p t Hbound HN; rewrite schedule_eq.
  - destruct (JS.gt (JS.Fin p) EPSILON) eqn:Hgt; [| eauto].
    apply gt_Fin in Hgt. specialize (Hbound [] p t (run_nil p t) Hgt).
    simpl in Hbound. lia.
  - destruct (JS.gt (JS.Fin p) EPSILON) eqn:Hgt; [| eauto].
    destruct (year 12 (JS.Fin A) (JS.Fin r) (JS.Fin e) (JS.Fin p) (JS.Fin t))
      as [[mps pf] tf] eqn:Hy.
    destruct (year_spec _ _ _ _ _ _ Hy)
      as [(Htr & -> & Hlen) | (p' & t' & Hrun & -> & -> & Hlen)].
    + rewrite schedule_eq.
      change (JS.gt (JS.Fin 0) EPSILON) with false. cbv iota. eauto.
    + destruct (IH (N - 12)%nat p' t') as [[payments total] Hres].
      * intros recs q u Hrun2 Hq.
        pose proof (Hbound _ _ _ (run_app _ _ _ _ _ _ _ _ Hrun Hrun2) Hq) as Hl.
        rewrite length_app in Hl. lia.
      * lia.
      * rewrite Hres. eauto.
Qed.


End Trace.

(** ** Loans whose payment covers the interest *)

Section Covered.

Variables P A r e : Q.
Hypothesis HP : 0 < P.
Hypothesis Hr : 0 <= r.
Hypothesis Hcover : P * r * (1 # 12) < A + e.

Local Abbreviation mth := (mth A r e).
Local Abbreviation run := (run A r e).
Local Abbreviation stops := (stops A r e).

(** One month from a balance in [(0, P]]. *)
Lemma month_covered (p t : Q) :
  0 < p <= P ->
  reduces (A + e) (mth p t) /\
  (exists q, Payment.principal (mth p t) = JS.Fin q /\ 0 <= q < p) /\
  (exists tn, Payment.totalPaid (mth p t) = JS.Fin tn /\ t < tn).
Proof.
  intros [Hp0 HpP].
  destruct (month_cases A r e p t)
    as (ip & pp & tn & Hi & Hpp & Ht & Hip & Htn & Hclamp & Hsnap).
  assert (Hip0 : 0 <= ip) by (rewrite Hip; nra).
  assert (HipP : ip <= P * r * (1 # 12)) by (rewrite Hip; nra).
  assert (Hpos : 0 < pp /\ pp <= p) by (destruct Hclamp as [[? ?] | [? ?]]; lra).
  repeat split.
  - exists ip, pp. repeat split; trivial; try lra.
  - destruct Hsnap as [[_ H0] | [Hgt (pn & Hpn & Heq)]].
    + exists 0. split; [exact H0 | lra].
    + exists pn. split; [exact Hpn | lra].
  - exists tn. split; [exact Ht | lra].
Qed.

Lemma run_covered p t recs p' t' :
  run p t recs p' t' -> 0 < p <= P ->
  0 < p' <= p /\ t <= t' /\ Forall (reduces (A + e)) recs /\
  forall rest, desc p' rest -> desc p (recs ++ rest).
Proof.
  induction 1 as [|p t p1 t1 recs p' t' Hp Ht Hgt Hrun IH]; intros Hrange.
  - repeat split; try lra; auto.
  - destruct (month_covered p t Hrange)
      as (Hred & (q & Hq & Hq0) & (tn & Htn & Hlt)).
    rewrite Hp in Hq. injection Hq as <-.
    rewrite Ht in Htn. injection Htn as <-.
    destruct IH as (Hp' & Htt & Hall & Hdesc); [lra |].
    repeat split; try lra.
    + constructor; assumption.
    + intros rest Hrest. cbn [app desc]. exists p1.
      split; [exact Hp |]. repeat split; try lra. apply Hdesc, Hrest.
Qed.

Lemma trace_covered recs total :
  trace A r e P 0 recs total ->
  Forall (reduces (A + e)) recs /\ desc P recs /\
  exists pre lastrec, recs = pre ++ [lastrec] /\
    Payment.principal lastrec = JS.Fin 0 /\
    Forall (fun rcd => JS.gt (Payment.principal rcd) EPSILON = true) pre.
Proof.
  intros (pre & p' & t' & -> & Hrun & Hstop & _).
  destruct (run_covered _ _ _ _ _ Hrun) as (Hp' & _ & Hall & Hdesc); [lra |].
  destruct (month_covered p' t') as (Hred & _); [lra |].
  repeat split.
  - apply Forall_app. split; [exact Hall | constructor; [exact Hred | constructor]].
  - apply Hdesc. cbn [desc]. exists 0.
    split; [exact Hstop |]. repeat split; trivial; lra.
  - exists pre, (mth p' t'). repeat split; trivial.
    clear - Hrun. induction Hrun; constructor; trivial.
    rewrite H. apply gt_Fin. assumption.
Qed.

End Covered.

(** ** The planned balance *)

Section Planned.

Variables P A r e : Q.

Local Abbreviation mth := (mth A r e).
Local Abbreviation run := (run A r e).
Local Abbreviation stops := (stops A r e).
Local Abbreviation planned := (planned P A r e).
Local Abbreviation paid := (paid A e).

Lemma paid_closed (k : nat) : paid k == inject_Z (Z.of_nat k) * (A + e).
Proof.
  induction k as [|k IH].
  - simpl. ring.
  - cbn [paid]. rewrite IH, Nat2Z.inj_succ. unfold Z.succ.
    rewrite inject_Z_plus. ring.
Qed.

(** A month that does not end the loop pays [A + e] in full. *)
Lemma month_full (p t p1 t1 : Q) :
  Payment.principal (mth p t) = JS.Fin p1 ->
  Payment.totalPaid (mth p t) = JS.Fin t1 ->
  1 # 100 < p1 ->
  p1 == p * (1 + r * (1 # 12)) - (A + e) /\ t1 == t + (A + e).
Proof.
  intros Hp Ht Hgt.
  destruct (month_cases A r e p t)
    as (ip & pp & tn & Hi & Hpp & Htn & Hip & Htot & Hclamp & Hsnap).
  rewrite Ht in Htn. injection Htn as <-.
  destruct Hsnap as [[_ H0] | [Hgt' (pn & Hpn & Heq)]].
  - rewrite Hp in H0. injection H0 as ->. exfalso.
    revert Hgt. apply Qle_not_lt. discriminate.
  - rewrite Hp in Hpn. injection Hpn as <-.
    destruct Hclamp as [[Hle Hc] | [Hlt Hc]]; [lra |].
    split; lra.
Qed.

(** The last month pays at most [A + e]. *)
Lemma month_at_most (p t : Q) :
  exists tn, Payment.totalPaid (mth p t) = JS.Fin tn /\ tn <= t + (A + e).
Proof.
  destruct (month_cases A r e p t)
    as (ip & pp & tn & Hi & Hpp & Htn & Hip & Htot & Hclamp & Hsnap).
  exists tn. split; [exact Htn |].
  destruct Hclamp as [[Hle Hc] | [Hlt Hc]]; lra.
Qed.

Section Upper.

Hypothesis Hq : 0 <= 1 + r * (1 # 12).

Lemma run_planned_le p t recs p' t' :
  run p t recs p' t' ->
  forall k, p <= planned k -> t <= paid k ->
  p' <= planned (k + length recs) /\ t' <= paid (k + length recs).
Proof.
  induction 1 as [|p t p1 t1 recs p' t' Hp Ht Hgt Hrun IH]; intros k Hpk Htk.
  - rewrite Nat.add_0_r. split; assumption.
  - destruct (month_full _ _ _ _ Hp Ht Hgt) as [Hp1 Ht1].
    cbn [length]. rewrite Nat.add_succ_r, <- Nat.add_succ_l.
    apply IH; cbn [planned paid]; [| lra].
    rewrite Hp1. nra.
Qed.

(** No month starts at or after a month whose planned balance is at
    most [EPSILON]. *)
Lemma run_bound (N : nat) :
  planned N <= 1 # 100 ->
  forall recs p' t', run P 0 recs p' t' -> 1 # 100 < p' -> length recs <> N.
Proof.
  intros HN recs p' t' Hrun Hgt Hlen.
  destruct (run_planned_le _ _ _ _ _ Hrun 0%nat) as [Hle _];
    [simpl; lra | simpl; lra |].
  simpl in Hle. rewrite Hlen in Hle. lra.
Qed.

Lemma trace_paid_le recs total :
  trace A r e P 0 recs total ->
  exists tq, total = JS.Fin tq /\ tq <= paid (length recs).
Proof.
  intros (pre & p' & t' & -> & Hrun & Hstop & ->).
  destruct (run_planned_le _ _ _ _ _ Hrun 0%nat) as [_ Hle];
    [simpl; lra | simpl; lra |].
  destruct (month_at_most p' t') as (tn & Htn & Hle').
  exists tn. split; [exact Htn |].
  rewrite length_app. cbn [length]. rewrite Nat.add_1_r.
  cbn [paid]. simpl in Hle. lra.
Qed.

End Upper.

(** While the planned balance stays above [EPSILON], the loop follows
    the plan. *)
Lemma run_planned_exact (K : nat) :
  (forall j, (j <= K)%nat -> 1 # 100 < planned j) ->
  exists recs p t,
    run P 0 recs p t /\ length recs = K /\ p == planned K /\ t == paid K.
Proof.
  induction K as [|K IH]; intros Habove.
  - exists [], P, 0. repeat split; try reflexivity. apply run_nil.
  - destruct IH as (recs & p & t & Hrun & Hlen & Hp & Ht).
    { intros j Hj. apply Habove. lia. }
    pose proof (Habove (S K) (le_n _)) as Hnext. cbn [planned] in Hnext.
    destruct (month_cases A r e p t)
      as (ip & pp & tn & Hi & Hpp & Htn & Hip & Htot & Hclamp & Hsnap).
    assert (Hraw : A + e - ip < p /\ pp == A + e - ip).
    { destruct Hclamp as [[Hle Hc] | ?]; [exfalso | assumption].
      rewrite <- Hp in Hnext. lra. }
    destruct Hraw as [Hlt Hc].
    destruct Hsnap as [[Hle _] | [Hgt (pn & Hpn & Heq)]].
    { exfalso. rewrite <- Hp in Hnext. lra. }
    exists (recs ++ [mth p t]), pn, tn. repeat split.
    + eapply run_snoc; eauto. lra.
    + rewrite length_app. simpl. lia.
    + cbn [planned]. rewrite <- Hp. lra.
    + cbn [paid]. rewrite <- Ht. lra.
Qed.

End Planned.

(** ** The fixed payment *)

Lemma termYears_lookup (loanTerm ty : nat) :
  nth_error termYears loanTerm = Some ty <->
  (loanTerm < 30)%nat /\ ty = S loanTerm.
Proof.
  split.
  - intro H.
    do 30 (destruct loanTerm as [|loanTerm]; [injection H as <-; lia |]).
    destruct loanTerm; discriminate.
  - intros [Hlt ->].
    do 30 (destruct loanTerm as [|loanTerm]; [reflexivity |]). lia.
Qed.

Lemma termMonths_lookup (loanTerm ty : nat) :
  nth_error termYears loanTerm = Some ty ->
  termMonths loanTerm = Some (ty * 12)%nat /\ (1 <= ty <= 30)%nat.
Proof.
  intro H. unfold termMonths. rewrite H. split; [reflexivity |].
  apply termYears_lookup in H. lia.
Qed.

Lemma Math_pow_Fin (x : Q) (k : nat) :
  (0 < k)%nat -> JS.Math_pow (JS.Fin x) (Some k) = JS.Fin (Qred (x ^ Z.of_nat k)).
Proof. destruct k; [lia | reflexivity]. Qed.

Lemma Qpower_nat_succ (x : Q) (k : nat) :
  x ^ Z.of_nat (S k) == x ^ Z.of_nat k * x.
Proof.
  rewrite Nat2Z.inj_succ. unfold Z.succ.
  rewrite Qpower_plus' by lia. rewrite Qpower_1_r. reflexivity.
Qed.

Lemma Qpower_nat_gt_1 (x : Q) (k : nat) :
  1 < x -> (0 < k)%nat -> 1 < x ^ Z.of_nat k.
Proof. intros Hx Hk. apply Qpower_1_lt; [exact Hx | lia]. Qed.

Lemma Qpower_nat_ge_1 (x : Q) (k : nat) : 1 <= x -> 1 <= x ^ Z.of_nat k.
Proof. intros Hx. apply Qpower_1_le; [exact Hx | lia]. Qed.

(** [monthlyPayment] computes the payment of the specification. *)
Lemma monthlyPayment_formula (P r : Q) (loanTerm ty : nat) :
  0 < r ->
  nth_error termYears loanTerm = Some ty ->
  exists A, monthlyPayment (JS.Fin P) (JS.Fin r) loanTerm = JS.Fin A /\
            A == payment_formula P r ty.
Proof.
  intros Hr Hty. destruct (termMonths_lookup _ _ Hty) as [Hm Hrange].
  unfold monthlyPayment. rewrite Hm, div_Fin_12, add_Fin.
  rewrite Math_pow_Fin by lia. rewrite !mul_Fin, sub_Fin.
  set (pw := Qred (Qred (1 + Qred (r / 12)) ^ Z.of_nat (ty * 12))).
  assert (Hpw : pw == (1 + r / 12) ^ Z.of_nat (ty * 12)).
  { unfold pw. rewrite !Qred_correct. reflexivity. }
  assert (Hgt : 1 < (1 + r / 12) ^ Z.of_nat (ty * 12)).
  { apply Qpower_nat_gt_1; [| lia].
    setoid_replace (r / 12) with (r * (1 # 12)) by field. lra. }
  unfold JS.div.
  destruct (Qeq_bool (Qred (pw - 1)) 0) eqn:Hz.
  - exfalso. apply Qeq_bool_iff in Hz. rewrite Qred_correct, Hpw in Hz. lra.
  - eexists. split; [reflexivity |].
    unfold JS.fin, payment_formula. cbv zeta. rewrite !Qred_correct, Hpw.
    set (g := (1 + r / 12) ^ Z.of_nat (ty * 12)) in *. field. lra.
Qed.

Section Annuity.

Variables P r e A : Q.
Variable ty : nat.
Hypothesis HP : 0 < P.
Hypothesis Hr : 0 < r.
Hypothesis He : 0 <= e.
Hypothesis Hty : (0 < ty)%nat.
Hypothesis HA : A == payment_formula P r ty.

Local Abbreviation q := (1 + r * (1 # 12)).
Local Abbreviation n := (ty * 12)%nat.

Lemma growth_gt_1 : 1 < q ^ Z.of_nat n.
Proof. apply Qpower_nat_gt_1; [lra | lia]. Qed.

(** The defining equation of the payment, without division. *)
Lemma payment_equation :
  A * (q ^ Z.of_nat n - 1) == P * (r * (1 # 12)) * q ^ Z.of_nat n.
Proof.
  pose proof growth_gt_1 as Hg.
  rewrite HA. unfold payment_formula. cbv zeta.
  setoid_replace (r / 12) with (r * (1 # 12)) by field.
  set (g := q ^ Z.of_nat n) in *. field. lra.
Qed.

Lemma payment_covers : P * r * (1 # 12) < A + e.
Proof.
  pose proof growth_gt_1 as Hg. pose proof payment_equation as Heq.
  set (g := q ^ Z.of_nat n) in *.
  assert (H : 0 < (A - P * r * (1 # 12)) * (g - 1)).
  { setoid_replace ((A - P * r * (1 # 12)) * (g - 1))
      with (A * (g - 1) - P * (r * (1 # 12)) * (g - 1)) by ring.
    rewrite Heq.
    setoid_replace (P * (r * (1 # 12)) * g - P * (r * (1 # 12)) * (g - 1))
      with (P * r * (1 # 12)) by ring.
    nra. }
  assert (0 < A - P * r * (1 # 12)); [| lra].
  destruct (Qlt_le_dec 0 (A - P * r * (1 # 12))) as [Hpos | Hneg]; [exact Hpos |].
  exfalso. assert (g - 1 > 0) by lra. nra.
Qed.

(** The planned balance in closed form, times the monthly rate. *)
Lemma planned_closed (k : nat) :
  planned P A r e k * (r * (1 # 12)) ==
  P * q ^ Z.of_nat k * (r * (1 # 12)) - (A + e) * (q ^ Z.of_nat k - 1).
Proof.
  induction k as [|k IH].
  - simpl. ring.
  - cbn [planned]. rewrite Qpower_nat_succ.
    setoid_replace ((planned P A r e k * q - (A + e)) * (r * (1 # 12)))
      with (planned P A r e k * (r * (1 # 12)) * q - (A + e) * (r * (1 # 12)))
      by ring.
    rewrite IH. ring.
Qed.

(** The plan ends at the term. *)
Lemma planned_term : planned P A r e n <= 0.
Proof.
  pose proof growth_gt_1 as Hg. pose proof payment_equation as Heq.
  pose proof (planned_closed n) as Hc.
  set (g := q ^ Z.of_nat n) in *.
  assert (H : planned P A r e n * (r * (1 # 12)) == - (e * (g - 1))).
  { rewrite Hc.
    setoid_replace (P * g * (r * (1 # 12)) - (A + e) * (g - 1))
      with (P * (r * (1 # 12)) * g - A * (g - 1) - e * (g - 1)) by ring.
    rewrite Heq. ring. }
  destruct (Qlt_le_dec 0 (planned P A r e n)) as [Hpos | Hneg]; [| exact Hneg].
  exfalso. assert (0 <= e * (g - 1)) by nra.
  assert (0 < planned P A r e n * (r * (1 # 12))) by nra. lra.
Qed.


(** The plan decreases month after month. *)
Lemma planned_decreasing (k : nat) :
  planned P A r e k <= P /\ planned P A r e (S k) < planned P A r e k.
Proof.
  pose proof payment_covers as Hc.
  induction k as [|k [IH1 IH2]].
  - simpl. split; lra.
  - split; [lra |].
    cbn [planned] in *. set (s := planned P A r e k) in *. nra.
Qed.

Lemma planned_antitone (j k : nat) :
  (j <= k)%nat -> planned P A r e k <= planned P A r e j.
Proof.
  induction 1 as [|k Hle IH]; [lra |].
  destruct (planned_decreasing k). lra.
Qed.

Lemma growth_nonneg : 0 <= q.
Proof. lra. Qed.

(** No month starts once the planned balance is at most [EPSILON]. *)
Lemma run_bound_valid (N : nat) recs p' t' :
  planned P A r e N <= 1 # 100 ->
  run A r e P 0 recs p' t' -> 1 # 100 < p' -> (length recs < N)%nat.
Proof.
  intros HN Hrun Hgt.
  destruct (run_planned_le P A r e growth_nonneg _ _ _ _ _ Hrun 0%nat) as [Hle _];
    [simpl; lra | simpl; lra |].
  simpl in Hle.
  destruct (Nat.lt_ge_cases (length recs) N) as [Hlt | Hge]; [exact Hlt |].
  pose proof (planned_antitone _ _ Hge). lra.
Qed.

Lemma trace_length_le (N : nat) recs total :
  planned P A r e N <= 1 # 100 -> 1 # 100 < P ->
  trace A r e P 0 recs total -> (length recs <= N)%nat.
Proof.
  intros HN HPgt (pre & p' & t' & -> & Hrun & Hstop & _).
  rewrite length_app. simpl.
  assert (Hgt : 1 # 100 < p').
  { destruct pre as [|x pre].
    - inversion Hrun; subst. exact HPgt.
    - eapply run_running; [exact Hrun | discriminate]. }
  pose proof (run_bound_valid N _ _ _ HN Hrun Hgt). lia.
Qed.

(** While the planned balance is above [EPSILON] the loop goes on, and
    everything planned so far has been paid. *)
Lemma trace_paid_ge (K : nat) recs total :
  1 # 100 < planned P A r e K ->
  trace A r e P 0 recs total ->
  (K < length recs)%nat /\
  exists tq, total = JS.Fin tq /\ paid A e K <= tq.
Proof.
  intros HK (pre & p' & t' & -> & Hrun & Hstop & ->).
  assert (Hr0 : 0 <= r) by lra.
  destruct (run_planned_exact P A r e K) as (recsK & pK & tK & HrunK & HlenK & HpK & HtK).
  { intros j Hj. pose proof (planned_antitone _ _ Hj). lra. }
  pose proof (run_before_stop _ _ _ _ _ _ _ _ HrunK _ _ _ Hrun Hstop) as Hle.
  rewrite HlenK in Hle.
  destruct (run_split _ _ _ _ _ _ _ _ Hrun K Hle)
    as (r1 & r2 & p1 & t1 & -> & Hlen1 & Hrun1 & Hrun2).
  destruct (run_det _ _ _ _ _ _ _ _ HrunK _ _ _ Hrun1) as (-> & -> & ->);
    [lia |].
  destruct (run_covered P A r e Hr0 payment_covers _ _ _ _ _ Hrun1)
    as (Hp1 & _); [lra |].
  destruct (run_covered P A r e Hr0 payment_covers _ _ _ _ _ Hrun2)
    as (Hp' & Htt & _); [lra |].
  destruct (month_covered P A r e Hr0 payment_covers p' t')
    as (_ & _ & (tn & Htn & Hlt)); [lra |].
  split.
  - rewrite !length_app. simpl. lia.
  - exists tn. split; [exact Htn | lra].
Qed.

Lemma planned_eq (k : nat) :
  planned P A r e k == planned_balance P r e ty k.
Proof.
  pose proof (planned_closed k) as Hc.
  unfold planned_balance. cbv zeta. rewrite <- HA.
  setoid_replace (r / 12) with (r * (1 # 12)) by field.
  set (g := q ^ Z.of_nat k) in *. set (s := planned P A r e k) in *.
  apply (Qmult_inj_r _ _ (r * (1 # 12))); [lra |].
  rewrite Hc. field. lra.
Qed.

Lemma paid_step_pos : 0 < A + e.
Proof. pose proof payment_covers. nra. Qed.

Lemma paid_mono (j k : nat) : (j <= k)%nat -> paid A e j <= paid A e k.
Proof.
  pose proof paid_step_pos.
  induction 1 as [|k Hle IH]; [lra |]. cbn [paid]. lra.
Qed.

End Annuity.

(** ** Valid loans *)

(** On a valid loan the loop returns within [ty] iterations; unless the
    principal is at most [EPSILON], what it returns is a trace of the
    months. *)
Lemma amortize_valid (P r e : Q) (loanTerm ty fuel : nat) :
  valid P r e loanTerm ty -> (ty <= fuel)%nat ->
  exists A payments total,
    monthlyPayment (JS.Fin P) (JS.Fin r) loanTerm = JS.Fin A /\
    A == payment_formula P r ty /\
    amortize fuel (JS.Fin P) (JS.Fin r) loanTerm (JS.Fin e) = Some (payments, total) /\
    ((P <= 1 # 100 /\ payments = [] /\ total = JS.Fin 0) \/
     (1 # 100 < P /\ trace A r e P 0 (months payments) total /\
      years_shape payments)).
Proof.
  intros (HP & Hr & He & Hty) Hfuel.
  destruct (monthlyPayment_formula P r loanTerm ty Hr Hty) as (A & HmA & HA).
  assert (Hty0 : (0 < ty)%nat) by (apply termYears_lookup in Hty; lia).
  destruct (schedule_terminates A r e fuel (ty * 12) P 0) as [[payments total] Hs].
  - intros recs p' t' Hrun Hgt.
    assert (Hend : planned P A r e (ty * 12) <= 1 # 100).
    { assert (planned P A r e (ty * 12) <= 0)
        by (eapply (planned_term P r e A ty); eassumption).
      lra. }
    eapply (run_bound_valid P r e A ty); eassumption.
  - lia.
  - exists A, payments, total. unfold amortize. rewrite HmA.
    repeat split; trivial.
    apply schedule_spec in Hs. exact Hs.
Qed.


(** How long a valid loan runs and what it pays, from the planned
    balance. *)
Lemma amortize_bounds (P r e : Q) (loanTerm ty fuel : nat) payments total :
  valid P r e loanTerm ty ->
  amortize fuel (JS.Fin P) (JS.Fin r) loanTerm (JS.Fin e) = Some (payments, total) ->
  exists A tq,
    monthlyPayment (JS.Fin P) (JS.Fin r) loanTerm = JS.Fin A /\
    A == payment_formula P r ty /\
    total = JS.Fin tq /\
    (forall N, planned_balance P r e ty N <= 1 # 100 ->
       (12 * length payments < N + 12)%nat /\
       tq <= inject_Z (Z.of_nat N) * (A + e)) /\
    (forall K, 1 # 100 < planned_balance P r e ty K ->
       (K < 12 * length payments)%nat /\
       inject_Z (Z.of_nat K) * (A + e) <= tq).
Proof.
  intros Hvalid Ham.
  pose proof Hvalid as (HP & Hr & He & Hty).
  assert (Hty0 : (0 < ty)%nat) by (apply termYears_lookup in Hty; lia).
  destruct (monthlyPayment_formula P r loanTerm ty Hr Hty) as (A & HmA & HA).
  assert (Hstep : 0 < A + e)
    by (eapply (paid_step_pos P r e A ty); eassumption).
  assert (Heq : forall k, planned P A r e k == planned_balance P r e ty k)
    by (intro k; eapply planned_eq; eassumption).
  assert (Hq : 0 <= 1 + r * (1 # 12)) by lra.
  unfold amortize in Ham. rewrite HmA in Ham.
  apply schedule_spec in Ham.
  destruct Ham as [(HPle & -> & ->) | (HPgt & Htr & Hsh1 & Hsh2)].
  - exists A, 0. repeat split; trivial.
    + simpl. lia.
    + assert (0 <= inject_Z (Z.of_nat N)).
      { change 0 with (inject_Z 0). rewrite <- Zle_Qle. lia. }
      nra.
    + exfalso. rewrite <- Heq in H.
      pose proof (planned_antitone P r e A ty HP Hr He Hty0 HA 0 K (Nat.le_0_l K))
        as Ha.
      simpl in Ha. lra.
    + exfalso. rewrite <- Heq in H.
      pose proof (planned_antitone P r e A ty HP Hr He Hty0 HA 0 K (Nat.le_0_l K))
        as Ha.
      simpl in Ha. lra.
  - destruct (trace_paid_le P A r e Hq _ _ Htr) as (tq & -> & Htq).
    exists A, tq. repeat split; trivial.
    + rewrite <- Heq in H.
      pose proof (trace_length_le P r e A ty HP Hr He Hty0 HA N _ _ H HPgt Htr).
      unfold months in *. lia.
    + rewrite <- Heq in H.
      pose proof (trace_length_le P r e A ty HP Hr He Hty0 HA N _ _ H HPgt Htr)
        as Hlen.
      pose proof (paid_mono P r e A ty HP Hr He Hty0 HA _ _ Hlen) as Hm.
      rewrite <- paid_closed. lra.
    + rewrite <- Heq in H.
      destruct (trace_paid_ge P r e A ty HP Hr He Hty0 HA K _ _ H Htr) as (Hk & _).
      unfold months in *. lia.
    + rewrite <- Heq in H.
      destruct (trace_paid_ge P r e A ty HP Hr He Hty0 HA K _ _ H Htr)
        as (_ & tq' & Htq' & Hge).
      injection Htq' as <-. rewrite <- paid_closed. exact Hge.
Qed.

(** ** The schedule of a valid loan *)










Lemma planned_balance_term (P r e : Q) (loanTerm ty : nat) :
  valid P r e loanTerm ty -> planned_balance P r e ty (ty * 12) <= 0.
Proof.
  intros (HP & Hr & He & Hty).
  assert (Hty0 : (0 < ty)%nat) by (apply termYears_lookup in Hty; lia).
  assert (HA : payment_formula P r ty == payment_formula P r ty) by reflexivity.
  rewrite <- (planned_eq P r e (payment_formula P r ty) ty Hr HA).
  eapply (planned_term P r e _ ty); eassumption.
Qed.


Lemma calculate_amortize (fuel : nat) (la i : JS.num) (loanTerm : nat) (x : JS.num) res :
  calculate fuel la i loanTerm x = Some res ->
  exists payments total,
    amortize fuel la i loanTerm x = Some (payments, total) /\
    Result.totalYears res = length payments /\
    Result.totalPaid res = JS.Math_round total /\
    Result.monthlyPayment res = JS.Math_round (monthlyPayment la i loanTerm).
Proof.
  unfold calculate.
  destruct (amortize fuel la i loanTerm x) as [[payments total]|]; [| discriminate].
  intros [= <-]. exists payments, total. repeat split.
Qed.





(** A valid loan returns, within its term, and how long it runs follows
    the planned balance. *)
Lemma amortize_years (P r e : Q) (loanTerm ty fuel : nat) :
  valid P r e loanTerm ty -> (ty <= fuel)%nat ->
  exists A payments total,
    monthlyPayment (JS.Fin P) (JS.Fin r) loanTerm = JS.Fin A /\
    A == payment_formula P r ty /\
    amortize fuel (JS.Fin P) (JS.Fin r) loanTerm (JS.Fin e) = Some (payments, total) /\
    (length payments <= ty)%nat /\
    (forall K, 1 # 100 < planned_balance P r e ty K ->
       (K < 12 * length payments)%nat).
Proof.
  intros Hvalid Hfuel.
  destruct (amortize_valid P r e loanTerm ty fuel Hvalid Hfuel)
    as (A & payments & total & HmA & HA & Ham & _).
  destruct (amortize_bounds P r e loanTerm ty fuel _ _ Hvalid Ham)
    as (A' & tq & _ & _ & _ & Hupper & Hlower).
  exists A, payments, total. repeat split; trivial.
  - pose proof (planned_balance_term P r e loanTerm ty Hvalid) as Hterm.
    destruct (Hupper (ty * 12)%nat) as [Hlen _];
      [eapply Qle_trans; [exact Hterm | discriminate] |].
    lia.
  - intros K HK. destruct (Hlower K HK) as [Hlt _]. exact Hlt.
Qed.

(** ** The loan of 500000 at 6.09% over 30 years *)

Lemma Qfloor_unique (z : Z) (x : Q) :
  inject_Z z <= x -> x < inject_Z (z + 1) -> Qfloor x = z.
Proof.
  intros Hlo Hhi.
  pose proof (Qfloor_le x) as Hfl. pose proof (Qlt_floor x) as Hlt.
  assert (H1 : (Qfloor x < z + 1)%Z).
  { rewrite Zlt_Qlt. eapply Qle_lt_trans; eassumption. }
  assert (H2 : (z < Qfloor x + 1)%Z).
  { rewrite Zlt_Qlt. eapply Qle_lt_trans; eassumption. }
  lia.
Qed.

Lemma Math_round_Fin (z : Z) (x : Q) :
  inject_Z z - (1 # 2) <= x -> x < inject_Z z + (1 # 2) ->
  JS.Math_round (JS.Fin x) = JS.Fin (inject_Z z).
Proof.
  intros Hlo Hhi. unfold JS.Math_round. f_equal. f_equal.
  apply Qfloor_unique; [lra |]. rewrite inject_Z_plus.
  change (inject_Z 1) with 1. lra.
Qed.

Lemma Math_round_lt (x y : Q) :
  x + 1 <= y ->
  JS.lt (JS.Math_round (JS.Fin x)) (JS.Math_round (JS.Fin y)) = true.
Proof.
  intros Hxy. unfold JS.Math_round, JS.lt. apply Qlt_bool_iff.
  pose proof (Qfloor_le (x + (1 # 2))) as Hx.
  pose proof (Qlt_floor (y + (1 # 2))) as Hy.
  rewrite inject_Z_plus in Hy. change (inject_Z 1) with 1 in Hy. lra.
Qed.

Lemma scenario_valid (e : Q) : 0 <= e -> valid 500000 (609 # 10000) e 29 30.
Proof. intro He. unfold valid. repeat split; trivial. Qed.

Lemma round_down_le (v : Q) : round_down v <= v.
Proof.
  unfold round_down. rewrite Qmake_Qdiv.
  pose proof (Qfloor_le (v * 1000000000000)) as H.
  apply Qle_shift_div_r; [reflexivity | exact H].
Qed.

Lemma round_up_ge (v : Q) : v <= round_up v.
Proof.
  unfold round_up. rewrite Qmake_Qdiv.
  pose proof (Qle_ceiling (v * 1000000000000)) as H.
  apply Qle_shift_div_l; [reflexivity | exact H].
Qed.

Lemma round_down_nonneg (v : Q) : 0 <= v -> 0 <= round_down v.
Proof.
  intro Hv. unfold round_down.
  assert (H : (0 <= Qfloor (v * 1000000000000))%Z).
  { change 0%Z with (Qfloor 0). apply Qfloor_resp_le. nra. }
  unfold Qle. cbn [Qnum Qden]. lia.
Qed.

Lemma Qpower_xO (x : Q) (p : positive) :
  x ^ Zpos p~0 == x ^ Zpos p * x ^ Zpos p.
Proof.
  replace (Zpos p~0) with (Zpos p + Zpos p)%Z by lia.
  apply Qpower_plus'. lia.
Qed.

Lemma Qpower_xI (x : Q) (p : positive) :
  x ^ Zpos p~1 == x * (x ^ Zpos p * x ^ Zpos p).
Proof.
  replace (Zpos p~1) with (1 + (Zpos p + Zpos p))%Z by lia.
  rewrite !Qpower_plus' by lia. rewrite Qpower_1_r. reflexivity.
Qed.

Lemma pow_bounds_correct (x l u : Q) (n : positive) :
  0 <= l -> l <= x <= u ->
  0 <= fst (pow_bounds l u n) /\
  fst (pow_bounds l u n) <= x ^ Zpos n <= snd (pow_bounds l u n).
Proof.
  intros Hl Hx. induction n as [p IH | p IH |]; cbn [pow_bounds].
  - destruct (pow_bounds l u p) as [a b]. cbn [fst snd] in *.
    destruct IH as (Ha & Hlo & Hhi). rewrite Qpower_xI.
    set (y := x ^ Zpos p) in *.
    pose proof (round_down_le (l * (a * a))).
    pose proof (round_up_ge (u * (b * b))).
    assert (Haa : a * a <= y * y) by nra.
    assert (Hbb : y * y <= b * b) by nra.
    assert (0 <= a * a) by nra.
    repeat split.
    + apply round_down_nonneg. nra.
    + eapply Qle_trans; [eassumption |]. nra.
    + eapply Qle_trans; [| eassumption]. nra.
  - destruct (pow_bounds l u p) as [a b]. cbn [fst snd] in *.
    destruct IH as (Ha & Hlo & Hhi). rewrite Qpower_xO.
    set (y := x ^ Zpos p) in *.
    pose proof (round_down_le (a * a)).
    pose proof (round_up_ge (b * b)).
    repeat split.
    + apply round_down_nonneg. nra.
    + eapply Qle_trans; [eassumption |]. nra.
    + eapply Qle_trans; [| eassumption]. nra.
  - cbn [fst snd]. rewrite Qpower_1_r. repeat split; try lra.
Qed.

(** The powers of 1.005075 that the two scenarios need. *)
Lemma scenario_growth (x : Q) (n : positive) (L U : Q) :
  x == 1005075 # 1000000 ->
  pow_bounds (1005075 # 1000000) (1005075 # 1000000) n = (L, U) ->
  L <= x ^ Zpos n <= U.
Proof.
  intros Hx Hb.
  destruct (pow_bounds_correct x (1005075 # 1000000) (1005075 # 1000000) n)
    as (_ & H); [discriminate | rewrite Hx; split; apply Qle_refl |].
  rewrite Hb in H. exact H.
Qed.

Lemma scenario_payment :
  3026745 # 1000 <= payment_formula 500000 (609 # 10000) 30 <= 3026746 # 1000.
Proof.
  unfold payment_formula. cbv zeta.
  change (Z.of_nat (30 * 12)) with (Zpos 360).
  set (x := 1 + (609 # 10000) / 12).
  assert (Hx : x == 1005075 # 1000000) by reflexivity.
  destruct (pow_bounds (1005075 # 1000000) (1005075 # 1000000) 360)
    as [L U] eqn:Hb.
  pose proof (scenario_growth x 360 L U Hx Hb) as HG.
  vm_compute in Hb. injection Hb as <- <-.
  set (G := x ^ Zpos 360) in *. clearbody G. clear x Hx.
  setoid_replace (500000 * ((609 # 10000) / 12) * G / (G - 1))
    with ((5075 # 2) + (5075 # 2) / (G - 1)) by (field; lra).
  assert (HGpos : 0 < G - 1) by lra.
  split.
  - apply Qplus_le_r with (z := - (5075 # 2)). ring_simplify.
    apply Qle_shift_div_l; [exact HGpos | lra].
  - apply Qplus_le_r with (z := - (5075 # 2)). ring_simplify.
    apply Qle_shift_div_r; [exact HGpos | lra].
Qed.

(** With no extra payment the loan is still open after 352 months. *)
Lemma scenario_A_open :
  1 # 100 < planned_balance 500000 (609 # 10000) 0 30 352.
Proof.
  pose proof scenario_payment as HA.
  unfold planned_balance. cbv zeta.
  set (A := payment_formula 500000 (609 # 10000) 30) in *.
  change (Z.of_nat 352) with (Zpos 352).
  set (x := 1 + (609 # 10000) / 12).
  assert (Hx : x == 1005075 # 1000000) by reflexivity.
  destruct (pow_bounds (1005075 # 1000000) (1005075 # 1000000) 352)
    as [L U] eqn:Hb.
  pose proof (scenario_growth x 352 L U Hx Hb) as Hg.
  vm_compute in Hb. injection Hb as <- <-.
  set (g := x ^ Zpos 352) in *. clearbody g A. clear x Hx.
  setoid_replace (500000 * g - (A + 0) * (g - 1) / ((609 # 10000) / 12))
    with (500000 * g - A * (g - 1) * (120000 # 609)) by field.
  assert (Hm : A * (g - 1) <= (3026746 # 1000) * (g - 1)) by nra.
  lra.
Qed.

(** With 500 more a month it is closed after 256 months. *)
Lemma scenario_B_closed :
  planned_balance 500000 (609 # 10000) 500 30 256 <= 1 # 100.
Proof.
  pose proof scenario_payment as HA.
  unfold planned_balance. cbv zeta.
  set (A := payment_formula 500000 (609 # 10000) 30) in *.
  change (Z.of_nat 256) with (Zpos 256).
  set (x := 1 + (609 # 10000) / 12).
  assert (Hx : x == 1005075 # 1000000) by reflexivity.
  destruct (pow_bounds (1005075 # 1000000) (1005075 # 1000000) 256)
    as [L U] eqn:Hb.
  pose proof (scenario_growth x 256 L U Hx Hb) as Hg.
  vm_compute in Hb. injection Hb as <- <-.
  set (g := x ^ Zpos 256) in *. clearbody g A. clear x Hx.
  setoid_replace (500000 * g - (A + 500) * (g - 1) / ((609 # 10000) / 12))
    with (500000 * g - (A + 500) * (g - 1) * (120000 # 609)) by field.
  assert (Hm : ((3026745 # 1000) + 500) * (g - 1) <= (A + 500) * (g - 1)) by nra.
  lra.
Qed.

(** C8, as the code has it.  For principal 500000, annual rate 0.0609,
    a term of 30 years and no extra payment, the fixed monthly payment
    is 3026.75 to the cent (3027 once rounded for display), and there
    are exactly 30 yearly entries. *)
Theorem scenario_A (k : nat) :
  exists A res,
    monthlyPayment (JS.Fin 500000) (JS.Fin (609 # 10000)) 29 = JS.Fin A /\
    3026745 # 1000 <= A <= 3026746 # 1000 /\
    calculate (30 + k) (JS.Fin 500000) (JS.Fin (609 # 10000)) 29 (JS.Fin 0)
      = Some res /\
    Result.monthlyPayment res = JS.Fin 3027 /\
    Result.totalYears res = 30%nat.
Proof.
  pose proof (scenario_valid 0 (Qle_refl 0)) as Hvalid.
  destruct (amortize_years 500000 (609 # 10000) 0 29 30 (30 + k) Hvalid)
    as (A & payments & total & HmA & HA & Ham & Hle & Hexact); [lia |].
  pose proof scenario_payment as Hpay. rewrite <- HA in Hpay.
  exists A, (result (JS.Fin A) total payments).
  split; [exact HmA |]. split; [exact Hpay |]. split.
  { unfold calculate. rewrite Ham, HmA. reflexivity. }
  split.
  - cbn [result Result.monthlyPayment].
    apply (Math_round_Fin 3027); change (inject_Z 3027) with 3027; lra.
  - cbn [result Result.totalYears].
    pose proof (Hexact 352%nat scenario_A_open) as Hlt. lia.
Qed.

(** C8, as stated, fails: the engine's monthly payment for this loan is
    more than 3 below 3029.85, and is shown as 3027. *)
Lemma scenario_A_payment :
  exists A,
    monthlyPayment (JS.Fin 500000) (JS.Fin (609 # 10000)) 29 = JS.Fin A /\
    3 < (302985 # 100) - A /\
    JS.Math_round (JS.Fin A) = JS.Fin 3027.
Proof.
  destruct (monthlyPayment_formula 500000 (609 # 10000) 29 30) as (A & HmA & HA);
    [reflexivity | reflexivity |].
  pose proof scenario_payment as Hpay. rewrite <- HA in Hpay.
  exists A. split; [exact HmA |]. split; [lra |].
  apply (Math_round_Fin 3027); change (inject_Z 3027) with 3027; lra.
Qed.

(** C9.  For principal 500000, annual rate 0.0609 and a term of 30
    years, an extra monthly payment of 500 gives fewer than 30 yearly
    entries and a smaller [totalPaid] than no extra payment, both as
    accumulated and as reported. *)
Theorem scenario_B (k : nat) :
  exists resA resB paymentsA paymentsB tA tB,
    amortize (30 + k) (JS.Fin 500000) (JS.Fin (609 # 10000)) 29 (JS.Fin 0)
      = Some (paymentsA, JS.Fin tA) /\
    amortize (30 + k) (JS.Fin 500000) (JS.Fin (609 # 10000)) 29 (JS.Fin 500)
      = Some (paymentsB, JS.Fin tB) /\
    calculate (30 + k) (JS.Fin 500000) (JS.Fin (609 # 10000)) 29 (JS.Fin 0)
      = Some resA /\
    calculate (30 + k) (JS.Fin 500000) (JS.Fin (609 # 10000)) 29 (JS.Fin 500)
      = Some resB /\
    (Result.totalYears resB < 30)%nat /\
    (Result.totalYears resB < Result.totalYears resA)%nat /\
    tB < tA /\
    JS.lt (Result.totalPaid resB) (Result.totalPaid resA) = true.
Proof.
  pose proof (scenario_valid 0 (Qle_refl 0)) as HvalidA.
  assert (HvalidB : valid 500000 (609 # 10000) 500 29 30)
    by (apply scenario_valid; discriminate).
  destruct (amortize_years 500000 (609 # 10000) 0 29 30 (30 + k) HvalidA)
    as (A & paymentsA & totalA & HmA & HA & HamA & _ & HexactA); [lia |].
  destruct (amortize_years 500000 (609 # 10000) 500 29 30 (30 + k) HvalidB)
    as (A' & paymentsB & totalB & HmA' & _ & HamB & _ & _); [lia |].
  rewrite HmA in HmA'. injection HmA' as <-.
  destruct (amortize_bounds _ _ _ _ _ _ _ _ HvalidA HamA)
    as (A1 & tA & HmA1 & _ & -> & _ & HlowerA).
  destruct (amortize_bounds _ _ _ _ _ _ _ _ HvalidB HamB)
    as (A2 & tB & HmA2 & _ & -> & HupperB & _).
  rewrite HmA in HmA1, HmA2. injection HmA1 as <-. injection HmA2 as <-.
  destruct (HlowerA 352%nat scenario_A_open) as [HlenA HtA].
  destruct (HupperB 256%nat scenario_B_closed) as [HlenB HtB].
  change (inject_Z (Z.of_nat 352)) with 352 in HtA.
  change (inject_Z (Z.of_nat 256)) with 256 in HtB.
  pose proof scenario_payment as Hpay. rewrite <- HA in Hpay.
  exists (result (JS.Fin A) (JS.Fin tA) paymentsA),
         (result (JS.Fin A) (JS.Fin tB) paymentsB),
         paymentsA, paymentsB, tA, tB.
  split; [exact HamA |]. split; [exact HamB |].
  split; [unfold calculate; rewrite HamA, HmA; reflexivity |].
  split; [unfold calculate; rewrite HamB, HmA; reflexivity |].
  cbn [result Result.totalYears Result.totalPaid].
  split; [lia |]. split; [lia |]. split; [lra |].
  apply Math_round_lt. lra.
Qed.

(** ** The balances of any schedule *)

Lemma gt_EPSILON_le (p : JS.num) :
  JS.gt p EPSILON = true -> JS.le p EPSILON = false.
Proof.
  destruct p; try discriminate; try reflexivity.
  unfold JS.gt, JS.lt, JS.le, EPSILON, JS.Qlt_bool.
  intro H. apply negb_true_iff in H. exact H.
Qed.

Lemma le_EPSILON_false (p : JS.num) :
  JS.le p EPSILON = false -> p = JS.NaN \/ JS.gt p EPSILON = true.
Proof.
  destruct p; try discriminate; auto.
  unfold JS.gt, JS.lt, JS.le, EPSILON, JS.Qlt_bool.
  intro H. right. rewrite H. reflexivity.
Qed.

(** The balance a month records is 0, or fails the test [<= EPSILON]. *)
Lemma month_principal (mp i x p t : JS.num) :
  Payment.principal (month mp i x p t) = JS.Fin 0 \/
  JS.le (Payment.principal (month mp i x p t)) EPSILON = false.
Proof.
  unfold month. cbv zeta. cbn [Payment.principal].
  match goal with
  | |- context [if JS.le ?v EPSILON then _ else _] =>
      destruct (JS.le v EPSILON) eqn:Hle
  end; [left; reflexivity | right; exact Hle].
Qed.

(** [NaN] stays: a month that starts with a [NaN] balance records one. *)
Lemma month_NaN (mp i x t : JS.num) :
  Payment.principal (month mp i x JS.NaN t) = JS.NaN.
Proof.
  unfold month. cbv zeta. cbn [Payment.principal].
  change (JS.mul JS.NaN i) with JS.NaN.
  change (JS.div JS.NaN (JS.Fin 12)) with JS.NaN.
  assert (H : JS.sub (JS.add mp x) JS.NaN = JS.NaN)
    by (destruct (JS.add mp x); reflexivity).
  rewrite H. reflexivity.
Qed.

Lemma year_NaN (j : nat) (mp i x t : JS.num) :
  forall recs pf tf,
    year j mp i x JS.NaN t = (recs, pf, tf) ->
    pf = JS.NaN /\ Forall (fun rcd => Payment.principal rcd = JS.NaN) recs.
Proof.
  revert t. induction j as [|j IH]; intros t recs pf tf Hy.
  - simpl in Hy. injection Hy as <- <- <-. split; constructor.
  - rewrite year_S in Hy. cbv zeta in Hy.
    pose proof (month_NaN mp i x t) as Hn. rewrite Hn in Hy.
    change (JS.le JS.NaN EPSILON) with false in Hy. cbv iota in Hy.
    destruct (year j mp i x JS.NaN (Payment.totalPaid (month mp i x JS.NaN t)))
      as [[rs p'] t'] eqn:Hrest.
    injection Hy as <- <- <-.
    destruct (IH _ _ _ _ Hrest) as [-> Hall].
    split; [reflexivity | constructor; assumption].
Qed.

(** The three ways a [for] loop can end: on a balance above [EPSILON]
    after months that are all above it, on a balance set to 0 by its
    last month, or on [NaN]. *)
Lemma year_balances (j : nat) (mp i x : JS.num) :
  forall p t recs pf tf,
    JS.le p EPSILON = false ->
    year j mp i x p t = (recs, pf, tf) ->
    (recs = [] -> pf = p) /\
    ((JS.gt pf EPSILON = true /\ Forall above recs) \/
     (pf = JS.Fin 0 /\
      exists pre l, recs = pre ++ [l] /\ Payment.principal l = JS.Fin 0 /\
                    Forall above pre) \/
     (pf = JS.NaN /\
      forall pre l, recs = pre ++ [l] -> Payment.principal l = JS.NaN)).
Proof.
  induction j as [|j IH]; intros p t recs pf tf Hp Hy.
  - simpl in Hy. injection Hy as <- <- <-. split; [reflexivity |].
    destruct (le_EPSILON_false _ Hp) as [-> | Hgt].
    + right. right. split; [reflexivity |]. intros [|a pre] l H; discriminate.
    + left. split; [exact Hgt | constructor].
  - rewrite year_S in Hy. cbv zeta in Hy.
    set (rcd := month mp i x p t) in *.
    split; [destruct (JS.le (Payment.principal rcd) EPSILON);
            [injection Hy as <- <- <- |
             destruct (year j mp i x (Payment.principal rcd) (Payment.totalPaid rcd))
               as [[rs p'] t']; injection Hy as <- <- <-]; discriminate |].
    destruct (month_principal mp i x p t) as [H0 | Hle]; fold rcd in H0 || fold rcd in Hle.
    + rewrite H0 in Hy. change (JS.le (JS.Fin 0) EPSILON) with true in Hy.
      cbv iota in Hy. injection Hy as <- <- <-.
      right. left. split; [reflexivity |].
      exists [], rcd. repeat split; [exact H0 | constructor].
    + rewrite Hle in Hy.
      destruct (year j mp i x (Payment.principal rcd) (Payment.totalPaid rcd))
        as [[rs p'] t'] eqn:Hrest.
      injection Hy as <- <- <-.
      destruct (le_EPSILON_false _ Hle) as [Hnan | Hgt].
      * rewrite Hnan in Hrest. apply year_NaN in Hrest. destruct Hrest as [-> Hall].
        right. right. split; [reflexivity |].
        intros pre l Hcat.
        assert (Hall' : Forall (fun r => Payment.principal r = JS.NaN) (rcd :: rs))
          by (constructor; assumption).
        rewrite Hcat in Hall'. apply Forall_app in Hall'. destruct Hall' as [_ Hl].
        inversion Hl; assumption.
      * destruct (IH _ _ _ _ _ Hle Hrest) as [Hnil [[Hpf Hall] | [[-> Hz] | [-> Hn]]]].
        -- left. split; [exact Hpf | constructor; assumption].
        -- right. left. split; [reflexivity |].
           destruct Hz as (pre & l & -> & Hl & Hpre).
           exists (rcd :: pre), l. repeat split; trivial. constructor; assumption.
        -- right. right. split; [reflexivity |].
           intros pre l Hcat. destruct rs as [|r0 rs0].
           ++ specialize (Hnil eq_refl). unfold above in *.
              rewrite <- Hnil in Hgt. discriminate.
           ++ destruct pre as [|x0 pre0]; [discriminate |].
              injection Hcat as _ Hcat. eapply Hn. exact Hcat.
Qed.

Lemma year_nonempty (j : nat) (mp i x p t : JS.num) recs pf tf :
  year (S j) mp i x p t = (recs, pf, tf) -> recs <> [].
Proof.
  rewrite year_S. cbv zeta.
  destruct (JS.le (Payment.principal (month mp i x p t)) EPSILON).
  - intros [= <- _ _]. discriminate.
  - destruct (year j mp i x _ _) as [[rs p'] t']. intros [= <- _ _]. discriminate.
Qed.

Lemma schedule_nonempty (fuel : nat) (mp i x p t : JS.num) payments total :
  JS.gt p EPSILON = true ->
  schedule fuel mp i x p t = Some (payments, total) ->
  concat payments <> [].
Proof.
  intros Hgt Hs. rewrite schedule_eq, Hgt in Hs.
  destruct fuel as [|fuel]; [discriminate |].
  destruct (year 12 mp i x p t) as [[mps pf] tf] eqn:Hy.
  apply year_nonempty in Hy.
  destruct (schedule fuel mp i x pf tf) as [[payments' total']|]; [| discriminate].
  destruct mps as [|m mps]; [congruence |].
  injection Hs as <- <-. discriminate.
Qed.

Lemma schedule_balances (fuel : nat) (mp i x : JS.num) :
  forall p t payments total,
    schedule fuel mp i x p t = Some (payments, total) ->
    forall pre l, concat payments = pre ++ [l] ->
    Payment.principal l <> JS.NaN ->
    Payment.principal l = JS.Fin 0 /\ Forall above pre.
Proof.
  induction fuel as [|fuel IH]; intros p t payments total Hs pre l Hcat Hl;
    rewrite schedule_eq in Hs;
    destruct (JS.gt p EPSILON) eqn:Hgt;
    try discriminate;
    try (injection Hs as <- <-; destruct pre; discriminate).
  destruct (year 12 mp i x p t) as [[mps pf] tf] eqn:Hy.
  pose proof (year_nonempty _ _ _ _ _ _ _ _ _ Hy) as Hne.
  destruct (year_balances _ _ _ _ _ _ _ _ _ (gt_EPSILON_le _ Hgt) Hy)
    as [_ [[Hpf Hall] | [[-> Hz] | [-> Hn]]]].
  - destruct (schedule fuel mp i x pf tf) as [[payments' total']|] eqn:Hrest;
      [| discriminate].
    destruct mps as [|m mps]; [congruence |].
    injection Hs as <- <-.
    pose proof (schedule_nonempty _ _ _ _ _ _ _ _ Hpf Hrest) as Hne'.
    destruct (exists_last Hne') as (pre' & l' & Hcat').
    cbn [concat] in Hcat. rewrite Hcat', app_assoc in Hcat.
    apply app_inj_tail in Hcat. destruct Hcat as [<- <-].
    destruct (IH _ _ _ _ Hrest _ _ Hcat' Hl) as [H0 Hpre].
    split; [exact H0 | apply Forall_app; split; assumption].
  - rewrite schedule_eq in Hs.
    change (JS.gt (JS.Fin 0) EPSILON) with false in Hs. cbv iota in Hs.
    destruct mps as [|m mps]; [congruence |].
    injection Hs as <- <-. cbn [concat] in Hcat. rewrite app_nil_r in Hcat.
    destruct Hz as (pre0 & l0 & Hmps & Hl0 & Hpre0).
    rewrite Hmps in Hcat. apply app_inj_tail in Hcat. destruct Hcat as [<- <-].
    split; assumption.
  - rewrite schedule_eq in Hs.
    change (JS.gt JS.NaN EPSILON) with false in Hs. cbv iota in Hs.
    destruct mps as [|m mps]; [congruence |].
    injection Hs as <- <-. cbn [concat] in Hcat. rewrite app_nil_r in Hcat.
    exfalso. apply Hl. eapply Hn. exact Hcat.
Qed.

(** On a valid loan the final balance is a number: the last record
    has balance 0 and the earlier ones are above [EPSILON]. *)
Lemma valid_balances (P r e : Q) (loanTerm ty fuel : nat) :
  valid P r e loanTerm ty -> (ty <= fuel)%nat ->
  exists payments total,
    amortize fuel (JS.Fin P) (JS.Fin r) loanTerm (JS.Fin e) = Some (payments, total) /\
    (months payments = [] \/
     exists pre lastrec,
       months payments = pre ++ [lastrec] /\
       Payment.principal lastrec = JS.Fin 0 /\ Forall above pre).
Proof.
  intros Hvalid Hfuel.
  destruct (amortize_valid P r e loanTerm ty fuel Hvalid Hfuel)
    as (A & payments & total & HmA & HA & Ham & Hcases).
  destruct Hvalid as (HP & Hr & He & Hty).
  assert (Hty0 : (0 < ty)%nat) by (apply termYears_lookup in Hty; lia).
  exists payments, total. split; [exact Ham |].
  destruct Hcases as [(_ & -> & _) | (HPgt & Htr & _)]; [left; reflexivity |].
  assert (Hr0 : 0 <= r) by lra.
  assert (Hcov : P * r * (1 # 12) < A + e)
    by (eapply (payment_covers P r e A ty); eassumption).
  destruct (trace_covered P A r e HP Hr0 Hcov _ _ Htr)
    as (_ & _ & pre & lastrec & Hcat & Hlast & Hpre).
  right. exists pre, lastrec. auto.
Qed.

(** C10, as the code has it.  For every input on which the loop
    terminates with a final balance that is a number, the remaining
    principal of the final record is exactly 0 and that of every earlier
    record is above 0.01. *)
Theorem final_balance_zero (fuel : nat) (loanAmount interest : JS.num)
    (loanTerm : nat) (extraPrincipal : JS.num) payments total pre lastrec :
  amortize fuel loanAmount interest loanTerm extraPrincipal = Some (payments, total) ->
  months payments = pre ++ [lastrec] ->
  Payment.principal lastrec <> JS.NaN ->
  Payment.principal lastrec = JS.Fin 0 /\
  Forall (fun rcd => JS.gt (Payment.principal rcd) EPSILON = true) pre.
Proof.
  unfold amortize, months. intros Hs Hcat Hl.
  exact (schedule_balances _ _ _ _ _ _ _ _ Hs _ _ Hcat Hl).
Qed.

Lemma final_balance_zero_witness :
  exists payments total r1 r2 r3,
    amortize 1 (JS.Fin 1000) (JS.Fin (12 # 100)) 0 (JS.Fin 400)
      = Some (payments, total) /\
    months payments = [r1; r2] ++ [r3] /\
    Payment.principal r3 <> JS.NaN /\
    Payment.principal r3 = JS.Fin 0 /\
    Forall (fun rcd => JS.gt (Payment.principal rcd) EPSILON = true) [r1; r2].
Proof.
  eexists _, _, _, _, _.
  split; [vm_compute; reflexivity |].
  split; [reflexivity |].
  split; [discriminate |].
  eapply (final_balance_zero 1 (JS.Fin 1000) (JS.Fin (12 # 100)) 0 (JS.Fin 400)
            _ _ [_; _] _).
  - vm_compute. reflexivity.
  - reflexivity.
  - discriminate.
Defined.

(** C10, as stated, fails: the form accepts the loan amount [Infinity];
    the loop then ends after twelve months whose balances are all [NaN],
    the last one included. *)
Lemma final_balance_NaN :
  (exists state,
      handleSubmit 1 (form JS.PInf (JS.Fin (609 # 100)) 0 (JS.Fin 0)) = Some state /\
      State.error state = Some Messages.none) /\
  exists payments total pre lastrec,
    amortize 1 JS.PInf (JS.Fin (609 # 10000)) 0 (JS.Fin 0) = Some (payments, total) /\
    months payments = pre ++ [lastrec] /\
    Payment.principal lastrec = JS.NaN /\
    Payment.principal lastrec <> JS.Fin 0 /\
    Forall (fun rcd => JS.gt (Payment.principal rcd) EPSILON = false) pre.
Proof.
  split.
  - eexists. split; [vm_compute; reflexivity | reflexivity].
  - eexists _, _, [_; _; _; _; _; _; _; _; _; _; _], _.
    split; [vm_compute; reflexivity |].
    split; [reflexivity |].
    split; [reflexivity |].
    split; [discriminate |].
    repeat constructor.
Qed.

(** ** Loans whose payment does not cover the interest *)

Section Uncovered.

Variables P A r e : Q.
Hypothesis HP : 1 # 100 < P.
Hypothesis Hr : 0 <= r.
Hypothesis Huncovered : A + e <= P * r * (1 # 12).



End Uncovered.






(** ** The form handler *)




(** ** The years of any schedule *)

Lemma le_EPSILON_gt (p : JS.num) :
  JS.le p EPSILON = true -> JS.gt p EPSILON = false.
Proof.
  destruct p; try discriminate; try reflexivity.
  unfold JS.gt, JS.lt, JS.le, EPSILON, JS.Qlt_bool.
  intro H. rewrite H. reflexivity.
Qed.

(** A [for] loop of [j] rounds pushes at most [j] records, and fewer
    only when it has left by [break]. *)
Lemma year_length (j : nat) (mp i x : JS.num) :
  forall p t recs pf tf,
    year j mp i x p t = (recs, pf, tf) ->
    (length recs <= j)%nat /\
    ((length recs < j)%nat -> JS.le pf EPSILON = true).
Proof.
  induction j as [|j IH]; intros p t recs pf tf Hy.
  - simpl in Hy. injection Hy as <- <- <-. simpl. split; lia.
  - rewrite year_S in Hy. cbv zeta in Hy.
    destruct (JS.le (Payment.principal (month mp i x p t)) EPSILON) eqn:Hle.
    + injection Hy as <- <- <-. simpl. split; [lia | intros _; exact Hle].
    + destruct (year j mp i x _ _) as [[rs p'] t'] eqn:Hrest.
      injection Hy as <- <- <-.
      destruct (IH _ _ _ _ _ Hrest) as [Hlen Hbreak].
      simpl. split; [lia | intro H; apply Hbreak; lia].
Qed.

Lemma schedule_years (fuel : nat) (mp i x : JS.num) :
  forall p t payments total,
    schedule fuel mp i x p t = Some (payments, total) ->
    Forall (fun mps => (1 <= length mps <= 12)%nat) payments /\
    forall init lastyear, payments = init ++ [lastyear] ->
      Forall (fun mps => length mps = 12%nat) init.
Proof.
  induction fuel as [|fuel IH]; intros p t payments total Hs;
    rewrite schedule_eq in Hs;
    destruct (JS.gt p EPSILON) eqn:Hgt;
    try discriminate;
    try (injection Hs as <- <-; split; [constructor |];
         intros [|a init] lastyear H; discriminate).
  destruct (year 12 mp i x p t) as [[mps pf] tf] eqn:Hy.
  pose proof (year_nonempty _ _ _ _ _ _ _ _ _ Hy) as Hne.
  destruct (year_length _ _ _ _ _ _ _ _ _ Hy) as [Hlen Hbreak].
  destruct (schedule fuel mp i x pf tf) as [[payments' total']|] eqn:Hrest;
    [| discriminate].
  destruct mps as [|m mps]; [congruence |].
  injection Hs as <- <-.
  destruct (IH _ _ _ _ Hrest) as [Hall Hinit].
  split.
  - constructor; [cbn [length] in *; lia | exact Hall].
  - intros init lastyear Hcat.
    destruct init as [|y init].
    + constructor.
    + injection Hcat as <- Hcat.
      constructor; [| eapply Hinit; exact Hcat].
      destruct (Nat.eq_dec (length (m :: mps)) 12) as [Heq | Hneq]; [exact Heq |].
      exfalso.
      assert (Hstop : JS.gt pf EPSILON = false)
        by (apply le_EPSILON_gt, Hbreak; lia).
      rewrite schedule_eq, Hstop in Hrest. injection Hrest as <- _.
      destruct init; discriminate.
Qed.

(** X1.  Whatever the input, when the loop ends every yearly group has
    between one and twelve months, and every group but the last has
    exactly twelve. *)
Theorem years_of_twelve_months (fuel : nat) (loanAmount interest : JS.num)
    (loanTerm : nat) (extraPrincipal : JS.num) payments total :
  amortize fuel loanAmount interest loanTerm extraPrincipal = Some (payments, total) ->
  Forall (fun mps => (1 <= length mps <= 12)%nat) payments /\
  forall init lastyear, payments = init ++ [lastyear] ->
    Forall (fun mps => length mps = 12%nat) init.
Proof.
  unfold amortize. apply schedule_years.
Qed.

Lemma years_of_twelve_months_witness :
  exists payments total,
    amortize 2 (JS.Fin 1000) (JS.Fin (12 # 100)) 1 (JS.Fin 40)
      = Some (payments, total) /\
    length payments = 2%nat /\
    Forall (fun mps => (1 <= length mps <= 12)%nat) payments /\
    forall init lastyear, payments = init ++ [lastyear] ->
      Forall (fun mps => length mps = 12%nat) init.
Proof.
  eexists _, _.
  split; [vm_compute; reflexivity |].
  split; [reflexivity |].
  eapply (years_of_twelve_months 2 (JS.Fin 1000) (JS.Fin (12 # 100)) 1 (JS.Fin 40)).
  vm_compute. reflexivity.
Defined.

(** ** The yearly sums and averages *)







Section Portions.

Variables A r e : Q.

Local Abbreviation mth := (mth A r e).




End Portions.




(** ** The table of a valid loan *)








(** ** What the form handler accepts *)

Lemma zero_or_NaN_test (x : JS.num) :
  JS.isNaN x || JS.falsy x = true <-> zero_or_NaN x.
Proof.
  unfold zero_or_NaN. destruct x as [| | |q]; cbn [JS.isNaN JS.falsy orb].
  - split; auto.
  - split; [discriminate | intros [H | (q & H & _)]; discriminate].
  - split; [discriminate | intros [H | (q & H & _)]; discriminate].
  - rewrite Qeq_bool_iff. split.
    + intro H. right. exists q. auto.
    + intros [H | (q' & H & Hq)]; [discriminate |]. injection H as ->. exact Hq.
Qed.

Lemma negative_test (x : JS.num) :
  JS.isNaN x || JS.lt x (JS.Fin 0) = true <-> x = JS.NaN \/ negative x.
Proof.
  unfold negative. destruct x as [| | |q]; cbn [JS.isNaN JS.lt orb].
  - split; auto.
  - split; [discriminate | intros [H | [H | (q & H & _)]]; discriminate].
  - split; auto.
  - rewrite Qlt_bool_iff. split.
    + intro H. right. right. exists q. auto.
    + intros [H | [H | (q' & H & Hq)]]; try discriminate.
      injection H as ->. exact Hq.
Qed.

Lemma test_false (b : bool) (Q : Prop) : (b = true <-> Q) -> ~ Q -> b = false.
Proof. intros H HQ. destruct b; [exfalso; apply HQ, H; reflexivity | reflexivity]. Qed.

(** X4.  [handleSubmit] checks the loan amount first, then the rate,
    then the extra payment, and reports the first that fails; it calls
    [calculate] exactly when the loan amount and the rate are numbers
    other than zero and the extra payment is a number that is not
    negative, and then clears the error and stores what [calculate]
    returns. *)
Theorem handleSubmit_decides (fuel : nat) (state : State.t) :
  (zero_or_NaN (State.loanAmount state) ->
   handleSubmit fuel state = Some (set_error Messages.loanAmount state)) /\
  (~ zero_or_NaN (State.loanAmount state) ->
   zero_or_NaN (annualRate state) ->
   handleSubmit fuel state = Some (set_error Messages.interest state)) /\
  (~ zero_or_NaN (State.loanAmount state) ->
   ~ zero_or_NaN (annualRate state) ->
   State.extraMonthlyPayment state = JS.NaN \/
   negative (State.extraMonthlyPayment state) ->
   handleSubmit fuel state = Some (set_error Messages.extraMonthlyPayment state)) /\
  (~ zero_or_NaN (State.loanAmount state) ->
   ~ zero_or_NaN (annualRate state) ->
   ~ (State.extraMonthlyPayment state = JS.NaN \/
      negative (State.extraMonthlyPayment state)) ->
   handleSubmit fuel state =
   option_map (fun res => set_results res (set_error Messages.none state))
     (calculate fuel (State.loanAmount state) (annualRate state)
        (State.loanTerm state) (State.extraMonthlyPayment state))).
Proof.
  unfold handleSubmit. fold (annualRate state).
  pose proof (zero_or_NaN_test (State.loanAmount state)) as Ha.
  pose proof (zero_or_NaN_test (annualRate state)) as Hi.
  pose proof (negative_test (State.extraMonthlyPayment state)) as Hx.
  repeat split.
  - intro H. apply Ha in H. rewrite H. reflexivity.
  - intros Hna H. rewrite (test_false _ _ Ha Hna). apply Hi in H.
    rewrite H. reflexivity.
  - intros Hna Hni H. rewrite (test_false _ _ Ha Hna), (test_false _ _ Hi Hni).
    apply Hx in H. rewrite H. reflexivity.
  - intros Hna Hni Hnx.
    rewrite (test_false _ _ Ha Hna), (test_false _ _ Hi Hni), (test_false _ _ Hx Hnx).
    destruct (calculate fuel _ _ _ _); reflexivity.
Qed.

Lemma handleSubmit_decides_witness :
  handleSubmit 1 (form (JS.Fin 0) JS.NaN 0 (JS.Fin (- (1))))
  = Some (set_error Messages.loanAmount (form (JS.Fin 0) JS.NaN 0 (JS.Fin (- (1))))) /\
  handleSubmit 1 (form (JS.Fin 1000) JS.NaN 0 (JS.Fin (- (1))))
  = Some (set_error Messages.interest (form (JS.Fin 1000) JS.NaN 0 (JS.Fin (- (1))))) /\
  handleSubmit 1 (form (JS.Fin 1000) (JS.Fin 12) 0 (JS.Fin (- (1))))
  = Some (set_error Messages.extraMonthlyPayment
            (form (JS.Fin 1000) (JS.Fin 12) 0 (JS.Fin (- (1))))) /\
  handleSubmit 1 (form (JS.Fin 1000) (JS.Fin 12) 0 (JS.Fin 2000))
  = option_map
      (fun res => set_results res
                    (set_error Messages.none (form (JS.Fin 1000) (JS.Fin 12) 0 (JS.Fin 2000))))
      (calculate 1 (JS.Fin 1000) (annualRate (form (JS.Fin 1000) (JS.Fin 12) 0 (JS.Fin 2000)))
         0 (JS.Fin 2000)).
Proof.
  split; [| split; [| split]].
  - apply (handleSubmit_decides 1 (form (JS.Fin 0) JS.NaN 0 (JS.Fin (- (1))))).
    right. exists 0. split; reflexivity.
  - apply (handleSubmit_decides 1 (form (JS.Fin 1000) JS.NaN 0 (JS.Fin (- (1))))).
    + intros [H | (q & H & Hq)]; [discriminate |].
      injection H as <-. discriminate.
    + left. reflexivity.
  - apply (handleSubmit_decides 1 (form (JS.Fin 1000) (JS.Fin 12) 0 (JS.Fin (- (1))))).
    + intros [H | (q & H & Hq)]; [discriminate |].
      injection H as <-. discriminate.
    + intros [H | (q & H & Hq)]; [discriminate |].
      injection H as <-. discriminate.
    + right. right. exists (- (1)). split; reflexivity.
  - apply (handleSubmit_decides 1 (form (JS.Fin 1000) (JS.Fin 12) 0 (JS.Fin 2000))).
    + intros [H | (q & H & Hq)]; [discriminate |].
      injection H as <-. discriminate.
    + intros [H | (q & H & Hq)]; [discriminate |].
      injection H as <-. discriminate.
    + intros [H | [H | (q & H & Hq)]]; try discriminate.
      injection H as <-. discriminate.
Defined.

(** X5.  [handleSubmit] changes nothing but the error and the results,
    and submitting again, with as much fuel or more, leaves the state as
    the first submission left it. *)
Theorem handleSubmit_again (fuel fuel' : nat) (state state' : State.t) :
  handleSubmit fuel state = Some state' -> (fuel <= fuel')%nat ->
  State.loanAmount state' = State.loanAmount state /\
  State.interest state' = State.interest state /\
  State.loanTerm state' = State.loanTerm state /\
  State.extraMonthlyPayment state' = State.extraMonthlyPayment state /\
  handleSubmit fuel' state' = Some state'.
Proof.
  unfold handleSubmit. intros H Hfuel.
  destruct (JS.isNaN (State.loanAmount state) || JS.falsy (State.loanAmount state))
    eqn:Ha.
  { injection H as <-. cbn [set_error State.loanAmount State.interest
      State.loanTerm State.extraMonthlyPayment State.results].
    rewrite Ha. repeat split. }
  destruct (JS.isNaN (JS.mul (State.interest state) (JS.Fin (1 # 100)))
            || JS.falsy (JS.mul (State.interest state) (JS.Fin (1 # 100)))) eqn:Hi.
  { injection H as <-. cbn [set_error State.loanAmount State.interest
      State.loanTerm State.extraMonthlyPayment State.results].
    rewrite Ha, Hi. repeat split. }
  destruct (JS.isNaN (State.extraMonthlyPayment state)
            || JS.lt (State.extraMonthlyPayment state) (JS.Fin 0)) eqn:Hx.
  { injection H as <-. cbn [set_error State.loanAmount State.interest
      State.loanTerm State.extraMonthlyPayment State.results].
    rewrite Ha, Hi, Hx. repeat split. }
  destruct (calculate fuel (State.loanAmount state)
              (JS.mul (State.interest state) (JS.Fin (1 # 100)))
              (State.loanTerm state) (State.extraMonthlyPayment state))
    as [res|] eqn:Hc; [| discriminate].
  injection H as <-.
  cbn [set_results set_error State.loanAmount State.interest
       State.loanTerm State.extraMonthlyPayment State.results State.error].
  rewrite Ha, Hi, Hx.
  assert (Hc' : calculate fuel' (State.loanAmount state)
              (JS.mul (State.interest state) (JS.Fin (1 # 100)))
              (State.loanTerm state) (State.extraMonthlyPayment state) = Some res).
  { unfold calculate in *.
    destruct (amortize fuel _ _ _ _) as [[payments total]|] eqn:Ham; [| discriminate].
    unfold amortize in *. rewrite (schedule_fuel _ _ _ _ _ _ _ _ Ham Hfuel).
    exact Hc. }
  rewrite Hc'. repeat split.
Qed.

Lemma handleSubmit_again_witness :
  exists state',
    handleSubmit 1 (form (JS.Fin 1000) (JS.Fin 12) 0 (JS.Fin 2000)) = Some state' /\
    handleSubmit 3 state' = Some state'.
Proof.
  eexists. split; [vm_compute; reflexivity |].
  eapply (handleSubmit_again 1 3 (form (JS.Fin 1000) (JS.Fin 12) 0 (JS.Fin 2000))).
  - vm_compute. reflexivity.
  - lia.
Defined.

(** ** A payment that is not a number *)

Lemma add_NaN_r (x : JS.num) : JS.add x JS.NaN = JS.NaN.
Proof. destruct x; reflexivity. Qed.

Lemma sub_NaN_r (x : JS.num) : JS.sub x JS.NaN = JS.NaN.
Proof. destruct x; reflexivity. Qed.

Lemma mul_NaN_r (x : JS.num) : JS.mul x JS.NaN = JS.NaN.
Proof. destruct x; reflexivity. Qed.

Lemma le_NaN_r (x : JS.num) : JS.le x JS.NaN = false.
Proof. destruct x; reflexivity. Qed.

(** With a payment that is [NaN] a month records its interest and
    nothing else that is a number. *)
Lemma month_payment_NaN (i x p t : JS.num) :
  month JS.NaN i x p t =
  Payment.mk (JS.div (JS.mul p i) (JS.Fin 12)) JS.NaN JS.NaN JS.NaN.
Proof.
  unfold month. cbv zeta.
  change (JS.sub (JS.add JS.NaN x) (JS.div (JS.mul p i) (JS.Fin 12))) with JS.NaN.
  rewrite le_NaN_r, sub_NaN_r, !add_NaN_r. reflexivity.
Qed.

Lemma year_payment_NaN (j : nat) (i x : JS.num) :
  forall p t,
    year (S j) JS.NaN i x p t =
    (Payment.mk (JS.div (JS.mul p i) (JS.Fin 12)) JS.NaN JS.NaN JS.NaN
       :: repeat (Payment.mk JS.NaN JS.NaN JS.NaN JS.NaN) j,
     JS.NaN, JS.NaN).
Proof.
  induction j as [|j IH]; intros p t; rewrite year_S, month_payment_NaN; cbv zeta;
    cbn [Payment.principal Payment.totalPaid];
    change (JS.le JS.NaN EPSILON) with false; cbv iota.
  - reflexivity.
  - rewrite IH. reflexivity.
Qed.

(** The payment is [NaN] when the term index is outside the array, and
    when the rate is zero. *)
Lemma monthlyPayment_NaN (loanAmount interest : JS.num) (loanTerm : nat) :
  (30 <= loanTerm)%nat \/ (exists q, interest = JS.Fin q /\ q == 0) ->
  monthlyPayment loanAmount interest loanTerm = JS.NaN.
Proof.
  intros [Hterm | (q & -> & Hq)]; unfold monthlyPayment; cbv zeta.
  - assert (Hm : termMonths loanTerm = None).
    { unfold termMonths.
      assert (H : nth_error termYears loanTerm = None)
        by (apply nth_error_None; exact Hterm).
      rewrite H. reflexivity. }
    rewrite Hm. cbn [JS.Math_pow]. rewrite !mul_NaN_r. reflexivity.
  - rewrite div_Fin_12.
    assert (Hi : Qred (q / 12) = 0).
    { change 0 with (Qred 0). apply Qred_complete. rewrite Hq. reflexivity. }
    rewrite Hi.
    assert (Hb : JS.sub (JS.Math_pow (JS.add (JS.Fin 1) (JS.Fin 0)) (termMonths loanTerm))
                   (JS.Fin 1) = JS.NaN \/
                 JS.sub (JS.Math_pow (JS.add (JS.Fin 1) (JS.Fin 0)) (termMonths loanTerm))
                   (JS.Fin 1) = JS.Fin 0).
    { destruct (termMonths loanTerm) as [[|k]|]; [right | right | left];
        try reflexivity.
      cbn [JS.Math_pow]. change (JS.add (JS.Fin 1) (JS.Fin 0)) with (JS.Fin 1).
      unfold JS.fin. rewrite sub_Fin.
      assert (H1 : Qred (1 ^ Z.of_nat (S k)) = 1).
      { change 1 with (Qred 1) at 2. apply Qred_complete. apply Qpower_1. }
      rewrite H1. reflexivity. }
    assert (Ha : JS.mul (JS.Fin 0)
                   (JS.Math_pow (JS.add (JS.Fin 1) (JS.Fin 0)) (termMonths loanTerm))
                 = JS.NaN \/
                 JS.mul (JS.Fin 0)
                   (JS.Math_pow (JS.add (JS.Fin 1) (JS.Fin 0)) (termMonths loanTerm))
                 = JS.Fin 0).
    { destruct (termMonths loanTerm) as [[|k]|]; [right | right | left];
        reflexivity. }
    destruct Hb as [-> | ->].
    + destruct (JS.mul loanAmount _); reflexivity.
    + destruct Ha as [-> | ->].
      * rewrite mul_NaN_r. reflexivity.
      * destruct loanAmount as [| | |P]; try reflexivity.
        rewrite mul_Fin.
        assert (H0 : Qred (P * 0) = 0).
        { change 0 with (Qred 0) at 2. apply Qred_complete. ring. }
        rewrite H0. reflexivity.
Qed.

(** X6.  When the term index is outside the array of terms, or the rate
    is zero, the payment is [NaN]; for a loan amount above [EPSILON] the
    loop then runs through one year of twelve months and stops, and
    [calculate] returns one year in which nothing is a number. *)
Theorem payment_not_a_number (fuel : nat) (loanAmount interest : JS.num)
    (loanTerm : nat) (extraPrincipal : JS.num) :
  (30 <= loanTerm)%nat \/ (exists q, interest = JS.Fin q /\ q == 0) ->
  JS.gt loanAmount EPSILON = true ->
  (exists first,
     amortize (S fuel) loanAmount interest loanTerm extraPrincipal =
     Some ([first :: repeat (Payment.mk JS.NaN JS.NaN JS.NaN JS.NaN) 11], JS.NaN) /\
     Payment.principal first = JS.NaN) /\
  calculate (S fuel) loanAmount interest loanTerm extraPrincipal =
  Some (Result.mk JS.NaN JS.NaN 1
          (ChartData.mk [1%nat] [JS.NaN] [JS.NaN])
          [Row.mk JS.NaN JS.NaN JS.NaN]).
Proof.
  intros Hcase Hgt.
  pose proof (monthlyPayment_NaN loanAmount interest loanTerm Hcase) as Hmp.
  assert (Ham : amortize (S fuel) loanAmount interest loanTerm extraPrincipal =
     Some ([Payment.mk (JS.div (JS.mul loanAmount interest) (JS.Fin 12))
              JS.NaN JS.NaN JS.NaN
            :: repeat (Payment.mk JS.NaN JS.NaN JS.NaN JS.NaN) 11], JS.NaN)).
  { unfold amortize. rewrite Hmp, schedule_eq, Hgt, year_payment_NaN, schedule_eq.
    reflexivity. }
  split.
  - eexists. split; [exact Ham | reflexivity].
  - unfold calculate. rewrite Ham, Hmp. unfold result, tableRow.
    set (first := Payment.mk (JS.div (JS.mul loanAmount interest) (JS.Fin 12))
                    JS.NaN JS.NaN JS.NaN).
    assert (Hyi : yearInterest
                    (first :: repeat (Payment.mk JS.NaN JS.NaN JS.NaN JS.NaN) 11)
                  = JS.NaN).
    { unfold yearInterest. cbn [repeat fold_left Payment.interestPayment].
      rewrite add_NaN_r. reflexivity. }
    assert (Hyp : yearPrincipal
                    (first :: repeat (Payment.mk JS.NaN JS.NaN JS.NaN JS.NaN) 11)
                  = JS.NaN).
    { unfold yearPrincipal. cbn [repeat fold_left]. reflexivity. }
    cbn [map length seq]. rewrite Hyi, Hyp. reflexivity.
Qed.

Lemma payment_not_a_number_witness :
  (exists first,
     amortize 1 (JS.Fin 1000) (JS.Fin (12 # 100)) 30 (JS.Fin 0) =
     Some ([first :: repeat (Payment.mk JS.NaN JS.NaN JS.NaN JS.NaN) 11], JS.NaN) /\
     Payment.principal first = JS.NaN) /\
  calculate 1 (JS.Fin 1000) (JS.Fin (12 # 100)) 30 (JS.Fin 0) =
  Some (Result.mk JS.NaN JS.NaN 1
          (ChartData.mk [1%nat] [JS.NaN] [JS.NaN])
          [Row.mk JS.NaN JS.NaN JS.NaN]).
Proof.
  apply (payment_not_a_number 0 (JS.Fin 1000) (JS.Fin (12 # 100)) 30 (JS.Fin 0)).
  - left. lia.
  - reflexivity.
Defined.

(** ** A larger extra payment *)




Section Extra.

Variables A r e1 e2 : Q.
Hypothesis Hr : 0 <= r.
Hypothesis He : e1 <= e2.

Local Abbreviation interests :=
  (map (fun rcd => value (Payment.interestPayment rcd))).




End Extra.



(** The 0.01 is needed: a loan of 1000 at 12% over one year is closed in
    its first month by an extra payment of 921.145 and by one of
    921.149, and the larger one pays 0.004 more in total. *)
Lemma extra_payment_may_cost :
  exists pay1 pay2 t1 t2,
    amortize 1 (JS.Fin 1000) (JS.Fin (12 # 100)) 0 (JS.Fin (921145 # 1000))
      = Some (pay1, JS.Fin t1) /\
    amortize 1 (JS.Fin 1000) (JS.Fin (12 # 100)) 0 (JS.Fin (921149 # 1000))
      = Some (pay2, JS.Fin t2) /\
    t2 == t1 + (4 # 1000).
Proof.
  eexists _, _, _, _.
  split; [vm_compute; reflexivity |].
  split; [vm_compute; reflexivity |]. reflexivity.
Qed.

(** ** The running total and the principal repaid *)

Section Totals.

Variables P A r e : Q.
Hypothesis HP : 0 < P.
Hypothesis Hr : 0 <= r.
Hypothesis Hcover : P * r * (1 # 12) < A + e.




End Totals.

Section Repaid.

Variables A r e : Q.




End Repaid.





(** ** The earlier version: a fixed number of payments *)




Lemma Legacy_year_S (j : nat) (mp i : JS.num) (s : Legacy.Acc.t) :
  Legacy.year (S j) mp i s = Legacy.month mp i (Legacy.year j mp i s).
Proof.
  revert s. induction j as [|j IH]; intro s; [reflexivity |].
  change (Legacy.year (S (S j)) mp i s)
    with (Legacy.year (S j) mp i (Legacy.month mp i s)).
  rewrite IH. reflexivity.
Qed.

Lemma Legacy_years_S (i : nat) (mp interest p t : JS.num) :
  Legacy.years (S i) mp interest p t =
  let s := Legacy.year 12 mp interest
             (Legacy.Acc.mk p t (JS.Fin 0) (JS.Fin 0)) in
  let '(interests, principals, total) :=
    Legacy.years i mp interest (Legacy.Acc.principal s) (Legacy.Acc.totalPaid s) in
  (JS.div (Legacy.Acc.interestPayments s) (JS.Fin 12) :: interests,
   JS.div (Legacy.Acc.principalPayments s) (JS.Fin 12) :: principals,
   total).
Proof. reflexivity. Qed.

Section LegacyLoop.

Variables A r : Q.




End LegacyLoop.

Lemma Legacy_termYears_cases (loanTerm ty : nat) :
  Legacy.termYears loanTerm = Some ty ->
  (loanTerm = 0%nat /\ ty = 30%nat) \/ (loanTerm = 1%nat /\ ty = 15%nat).
Proof.
  destruct loanTerm as [|[|k]]; intro H; [left | right | discriminate];
    injection H as <-; split; reflexivity.
Qed.

(** The two terms of the earlier version are the thirtieth and the
    fifteenth of the later one, with the same payment. *)
Lemma Legacy_monthlyPayment_eq (la i : JS.num) (loanTerm ty : nat) :
  Legacy.termYears loanTerm = Some ty ->
  nth_error termYears (ty - 1) = Some ty /\
  Legacy.monthlyPayment la i loanTerm = monthlyPayment la i (ty - 1).
Proof.
  intro H. destruct (Legacy_termYears_cases _ _ H) as [[-> ->] | [-> ->]];
    split; reflexivity.
Qed.





(** X12.  For a term that is neither of the two on offer the earlier
    version runs no month at all: the payment is [NaN], the total is 0,
    and the chart has the single label 1 and no bar. *)
Theorem legacy_term_unknown (loanAmount interest : JS.num) (loanTerm : nat) :
  (2 <= loanTerm)%nat ->
  Legacy.calculate loanAmount interest loanTerm =
  Legacy.Result.mk JS.NaN (JS.Fin 0) (ChartData.mk [1%nat] [] []).
Proof.
  intro H. destruct loanTerm as [|[|k]]; try lia.
  unfold Legacy.calculate, Legacy.labels, Legacy.monthlyPayment, Legacy.termMonths.
  cbv zeta. cbn [Legacy.termYears option_map JS.Math_pow Legacy.years].
  rewrite !mul_NaN_r. reflexivity.
Qed.

Lemma legacy_term_unknown_witness :
  Legacy.calculate (JS.Fin 1000) (JS.Fin (7 # 100)) 2 =
  Legacy.Result.mk JS.NaN (JS.Fin 0) (ChartData.mk [1%nat] [] []).
Proof.
  apply (legacy_term_unknown (JS.Fin 1000) (JS.Fin (7 # 100)) 2). lia.
Defined.

(** ** The earlier version at a rate of zero *)

Lemma Legacy_month_NaN (i : JS.num) (s : Legacy.Acc.t) :
  Legacy.month JS.NaN i s =
  Legacy.Acc.mk JS.NaN JS.NaN
    (JS.add (Legacy.Acc.interestPayments s)
       (JS.div (JS.mul (Legacy.Acc.principal s) i) (JS.Fin 12)))
    JS.NaN.
Proof.
  unfold Legacy.month. cbv zeta.
  change (JS.sub JS.NaN (JS.div (JS.mul (Legacy.Acc.principal s) i) (JS.Fin 12)))
    with JS.NaN.
  rewrite sub_NaN_r, !add_NaN_r. reflexivity.
Qed.

Lemma Legacy_year_NaN (j : nat) (i : JS.num) (s : Legacy.Acc.t) :
  Legacy.Acc.principal (Legacy.year (S j) JS.NaN i s) = JS.NaN /\
  Legacy.Acc.totalPaid (Legacy.year (S j) JS.NaN i s) = JS.NaN.
Proof. rewrite Legacy_year_S, Legacy_month_NaN. split; reflexivity. Qed.

Lemma Legacy_years_NaN (n : nat) (i : JS.num) :
  forall p t interests principals total,
    Legacy.years (S n) JS.NaN i p t = (interests, principals, total) ->
    total = JS.NaN.
Proof.
  induction n as [|n IH]; intros p t interests principals total;
    rewrite Legacy_years_S; cbv zeta;
    destruct (Legacy_year_NaN 11 i (Legacy.Acc.mk p t (JS.Fin 0) (JS.Fin 0)))
      as [Hp Ht];
    rewrite Hp, Ht.
  - cbn [Legacy.years]. intros [= _ _ <-]. reflexivity.
  - destruct (Legacy.years (S n) JS.NaN i JS.NaN JS.NaN) as [[a b] c] eqn:Hrest.
    intros [= _ _ <-]. eapply IH. exact Hrest.
Qed.

(** X13.  The earlier [handleSubmit] rejects only what is not a number.
    It accepts a rate of zero, and then shows a payment and a total that
    are [NaN]; the later [handleSubmit] rejects the same loan amount and
    rate with the message for the interest. *)
Theorem legacy_zero_rate (state : Legacy.State.t) (P q : Q) :
  Legacy.State.loanAmount state = JS.Fin P -> ~ P == 0 ->
  Legacy.State.interest state = JS.Fin q -> q == 0 ->
  (Legacy.State.loanTerm state <= 1)%nat ->
  Legacy.handleSubmit state =
  Legacy.State.mk (JS.Fin P) (JS.Fin q) (Legacy.State.loanTerm state)
    (Some Messages.none) (Legacy.Results.mk (Some JS.NaN) (Some JS.NaN)) /\
  forall fuel loanTerm extra error results,
    handleSubmit fuel (State.mk (JS.Fin P) (JS.Fin q) loanTerm extra error results) =
    Some (State.mk (JS.Fin P) (JS.Fin q) loanTerm extra (Some Messages.interest) results).
Proof.
  intros Hla HP Hi Hq Hterm.
  assert (Hrate : Qred (q * (1 # 100)) == 0) by (rewrite Qred_correct, Hq; ring).
  split.
  - unfold Legacy.handleSubmit. cbv zeta. rewrite Hla, Hi, mul_Fin.
    cbn [JS.isNaN]. unfold Legacy.calculate. cbv zeta.
    assert (Hty : exists ty, Legacy.termYears (Legacy.State.loanTerm state) = Some (S ty)).
    { destruct (Legacy.State.loanTerm state) as [|[|k]]; [| | lia];
        eexists; reflexivity. }
    destruct Hty as (ty & Hty).
    destruct (Legacy_monthlyPayment_eq (JS.Fin P) (JS.Fin (Qred (q * (1 # 100))))
                _ _ Hty) as [_ Heq].
    rewrite Heq, monthlyPayment_NaN by (right; eexists; split; [reflexivity | exact Hrate]).
    rewrite Hty.
    destruct (Legacy.years (S ty) JS.NaN (JS.Fin (Qred (q * (1 # 100)))) (JS.Fin P)
                (JS.Fin 0)) as [[a b] c] eqn:Hys.
    apply Legacy_years_NaN in Hys. subst c. reflexivity.
  - intros fuel loanTerm extra error results. unfold handleSubmit. cbv zeta.
    cbn [State.loanAmount State.interest]. rewrite mul_Fin.
    cbn [JS.isNaN JS.falsy orb].
    assert (H1 : Qeq_bool P 0 = false).
    { destruct (Qeq_bool P 0) eqn:E; [| reflexivity].
      apply Qeq_bool_iff in E. contradiction. }
    assert (H2 : Qeq_bool (Qred (q * (1 # 100))) 0 = true)
      by (apply Qeq_bool_iff; exact Hrate).
    rewrite H1, H2. reflexivity.
Qed.

Lemma legacy_zero_rate_witness :
  Legacy.handleSubmit
    (Legacy.State.mk (JS.Fin 300000) (JS.Fin 0) 0 None (Legacy.Results.mk None None)) =
  Legacy.State.mk (JS.Fin 300000) (JS.Fin 0) 0
    (Some Messages.none) (Legacy.Results.mk (Some JS.NaN) (Some JS.NaN)) /\
  forall fuel loanTerm extra error results,
    handleSubmit fuel
      (State.mk (JS.Fin 300000) (JS.Fin 0) loanTerm extra error results) =
    Some (State.mk (JS.Fin 300000) (JS.Fin 0) loanTerm extra
            (Some Messages.interest) results).
Proof.
  apply (legacy_zero_rate
           (Legacy.State.mk (JS.Fin 300000) (JS.Fin 0) 0 None
              (Legacy.Results.mk None None)) 300000 0).
  - reflexivity.
  - discriminate.
  - reflexivity.
  - reflexivity.
  - cbn [Legacy.State.loanTerm]. lia.
Defined.

(** ** The two versions side by side *)


Section Versions.

Variables A r : Q.




End Versions.



(** ** A valid form, from submission to results *)




(** ** The payment and the term *)



(** ** The interest from year to year *)






Section Interest.

Variables P A r e : Q.
Hypothesis HP : 0 < P.
Hypothesis Hr : 0 <= r.
Hypothesis Hcover : P * r * (1 # 12) < A + e.

Local Abbreviation falls :=
  (fun x y : Payment.t =>
     value (Payment.interestPayment y) <= value (Payment.interestPayment x)).



End Interest.



